(** * Release tools: the version-directive rewriter and the release checks

    A shallow embedding of [update_version_next.py] (the pattern
    [DIRECTIVE_RE] and [main]) and of the release checks exercised by
    [tests/test_run_release.py], with the properties stated about them.

    Python strings are sequences of Unicode code points: a character is a
    code point in [N] and a string is a list of them.  Files hold text;
    encoding and decoding (UTF-8) are not part of the model. *)

From Stdlib Require Import NArith Ascii String Decimal DecimalPos DecimalN Lia.
From stdpp Require Import base option list gmap strings.

Open Scope N_scope.
Open Scope list_scope.

(** ** Characters and strings *)

Module Py.

Abbreviation char := N.
Abbreviation str := (list N).

(** A literal of the development, as a Python string (ASCII only). *)
Definition lit (s : string) : str :=
  map N_of_ascii (list_ascii_of_string s).

Definition LF : char := 10.
Definition CR : char := 13.

(** [str.isspace] for one character, which is what [\s] tests in a [str]
    pattern: the ASCII white space 9-13, 28-32 and the Unicode characters
    of bidirectional type WS, B or S or of category Zs. *)
Definition is_space (c : char) : bool :=
  ((9 <=? c) && (c <=? 13)) || ((28 <=? c) && (c <=? 32))
  || (c =? 133) || (c =? 160) || (c =? 5760)
  || ((8192 <=? c) && (c <=? 8202))
  || (c =? 8232) || (c =? 8233) || (c =? 8239) || (c =? 8287)
  || (c =? 12288).

(** [.] under [re.DOTALL]: any character, line breaks included. *)
Definition any_char (_ : char) : bool := true.

(** [s.startswith(p)], returning what follows the prefix. *)
Fixpoint strip_prefix (p s : str) : option str :=
  match p with
  | [] => Some s
  | a :: p' =>
      match s with
      | [] => None
      | b :: s' => if a =? b then strip_prefix p' s' else None
      end
  end.

(** [needle in s] for strings. *)
Fixpoint contains (needle s : str) : bool :=
  match strip_prefix needle s with
  | Some _ => true
  | None => match s with [] => false | _ :: s' => contains needle s' end
  end.

(** [s.lstrip()]. *)
Fixpoint lstrip (s : str) : str :=
  match s with
  | c :: s' => if is_space c then lstrip s' else s
  | [] => []
  end.

End Py.

(** ** A backtracking matcher for the constructs [DIRECTIVE_RE] uses *)

Module Re.
Import Py.

(** Repetition is only ever applied to a character class in the pattern,
    so [Star] and [Plus] take a class; all quantifiers are greedy. *)
Inductive regex : Type :=
| Lit (l : str)
| Star (p : char -> bool)
| Plus (p : char -> bool)
| Seq (r1 r2 : regex)
| Alt (r1 r2 : regex)
| Opt (r : regex)
| Group (n : nat) (r : regex).

(** The groups of a match object: group number to matched text. *)
Abbreviation groups := (gmap nat str).

(** Greedy repetition of a class: the longest run first, then shorter
    ones while the rest of the pattern fails. *)
Fixpoint star_greedy {A} (p : char -> bool) (s : str)
    (k : str -> option A) : option A :=
  match s with
  | c :: s' =>
      if p c then
        match star_greedy p s' k with
        | Some x => Some x
        | None => k s
        end
      else k s
  | [] => k s
  end.

(** [exec r s g k]: match [r] at the front of [s] with groups [g], then
    run the rest of the pattern [k] on what is left; on failure of [k],
    backtrack into [r]. *)
Fixpoint exec {A} (r : regex) (s : str) (g : groups)
    (k : str -> groups -> option A) : option A :=
  match r with
  | Lit l =>
      match strip_prefix l s with
      | Some s' => k s' g
      | None => None
      end
  | Star p => star_greedy p s (fun s' => k s' g)
  | Plus p =>
      match s with
      | c :: s' => if p c then star_greedy p s' (fun s'' => k s'' g) else None
      | [] => None
      end
  | Seq r1 r2 => exec r1 s g (fun s' g' => exec r2 s' g' k)
  | Alt r1 r2 =>
      match exec r1 s g k with
      | Some x => Some x
      | None => exec r2 s g k
      end
  | Opt r1 =>
      match exec r1 s g k with
      | Some x => Some x
      | None => k s g
      end
  | Group n r1 =>
      exec r1 s g
        (fun s' g' => k s' (<[n := take (length s - length s') s]> g'))
  end.

(** [Pattern.fullmatch]: the whole string has to be consumed. *)
Definition fullmatch (r : regex) (s : str) : option groups :=
  exec r s ∅ (fun rest g => match rest with [] => Some g | _ => None end).

End Re.

(** ** The rewriter, [update_version_next.py] *)

Module UpdateVersionNext.
Import Py Re.

Declare Scope re_scope.
Delimit Scope re_scope with re.
Infix "⋅" := Seq (at level 60, right associativity) : re_scope.
Infix "∥" := Alt (at level 65, right associativity) : re_scope.

(** Group numbers of [DIRECTIVE_RE], counted by opening parenthesis;
    [before] and [after] are the named ones. *)
Definition before : nat := 1.
Definition after : nat := 5.

Definition DIRECTIVE_RE : regex :=
  (Group before
     (Star is_space ⋅ Lit (lit "..") ⋅ Plus is_space ⋅
      Group 2
        ((Lit (lit "version") ⋅
          Group 3 (Lit (lit "added") ∥ Lit (lit "changed")
                   ∥ Lit (lit "removed")))
         ∥ (Lit (lit "deprecated") ⋅ Opt (Group 4 (Lit (lit "-removed"))))) ⋅
      Star is_space ⋅ Lit (lit "::") ⋅ Star is_space) ⋅
   Lit (lit "next") ⋅
   Group after (Star any_char))%re.

(** *** Reading and writing text files

    [open(path, encoding="utf-8")] reads with universal newlines: CR LF
    and a lone CR both arrive as LF, and iterating the file yields the
    text cut after every LF.  [open(path, "w")] writes LF as it is (the
    POSIX behaviour). *)

Fixpoint universal_newlines (s : str) : str :=
  match s with
  | [] => []
  | c :: s' =>
      if c =? CR then
        LF :: match s' with
              | d :: s'' =>
                  if d =? LF then universal_newlines s''
                  else universal_newlines s'
              | [] => []
              end
      else c :: universal_newlines s'
  end.

Fixpoint split_lines (s : str) : list str :=
  match s with
  | [] => []
  | c :: s' =>
      if c =? LF then [c] :: split_lines s'
      else match split_lines s' with
           | [] => [[c]]
           | l :: ls => (c :: l) :: ls
           end
  end.

Definition readlines (content : str) : list str :=
  split_lines (universal_newlines content).

(** *** Exceptions, output and the file tree

    The tree holds the files that can be read as text: a path of the tree
    opens and its bytes are UTF-8.  Reading any other path raises, be it
    that [open] fails or that the bytes do not decode; the model does not
    tell the two apart.  Every path names a file of its own (no links),
    and what is written is text that encodes, so a write puts the whole
    text in place. *)

Inductive exn : Type :=
| TypeError (path : string) (lineno : nat)
    (* a group used on line 71 is [None]; the note of line 75 is attached *)
| OSError (path : string).
    (* reading [path] fails: [open] raises, or the bytes are not UTF-8 *)

Inductive message : Type :=
| Updating_next (directory : string) (version : str)
| Updating_file (path : string) (num_changed_lines : nat)
| Unchanged_file (path : string).

Inductive event : Type :=
| Stderr (m : message)
| Written (path : string) (lines : list str).

Record world : Type := World {
  files : gmap string str;
  trace : list event
}.

Definition print (m : message) (w : world) : world :=
  World (files w) (trace w ++ [Stderr m]).

(** [open(path, "w")] followed by [file.writelines(lines)]. *)
Definition write (path : string) (lines : list str) (w : world) : world :=
  World (<[path := concat lines]> (files w)) (trace w ++ [Written path lines]).

(** *** [main] *)

Record args : Type := Args {
  version : str;
  directory : string;
  verbose : nat
}.

(** Lines 70-73: one line of the file, on the pair
    [(num_changed_lines, lines)].  [None] is the [TypeError] of adding
    [None] to a string. *)
Definition scan_line (version line : str) (acc : nat * list str)
    : option (nat * list str) :=
  let '(num_changed_lines, lines) := acc in
  match fullmatch DIRECTIVE_RE line with
  | Some m =>
      b ← m !! before;
      a ← m !! after;
      Some (S num_changed_lines, lines ++ [b ++ version ++ a])
  | None => Some (num_changed_lines, lines ++ [line])
  end.

(** Lines 68-76: the loop over [enumerate(file, start=1)]. *)
Fixpoint scan (version : str) (path : string) (lineno : nat)
    (file : list str) (acc : nat * list str) : exn + nat * list str :=
  match file with
  | [] => inr acc
  | line :: file' =>
      match scan_line version line acc with
      | Some acc' => scan version path (S lineno) file' acc'
      | None => inl (TypeError path lineno)
      end
  end.

(** Lines 65-88: the body of the loop over the paths.  The result is the
    world left behind and the exception that ended the run, if any. *)
Definition process_file (a : args) (path : string) (w : world)
    : world * option exn :=
  match files w !! path with
  | None => (w, Some (OSError path))
  | Some content =>
      match scan (version a) path 1 (readlines content) (0%nat, []) with
      | inl e => (w, Some e)
      | inr (num_changed_lines, lines) =>
          match num_changed_lines with
          | O =>
              (if (1 <? verbose a)%nat then print (Unchanged_file path) w
               else w, None)
          | S _ =>
              let w' :=
                if (0 <? verbose a)%nat
                then print (Updating_file path num_changed_lines) w
                else w in
              (write path lines w', None)
          end
      end
  end.

Fixpoint main_loop (a : args) (paths : list string) (w : world)
    : world * option exn :=
  match paths with
  | [] => (w, None)
  | path :: paths' =>
      match process_file a path w with
      | (w', None) => main_loop a paths' w'
      | (w', Some e) => (w', Some e)
      end
  end.

Section Main.

(** [Path(directory).glob("**/*.rst")]: the traversal of the tree is a
    parameter.  The program rewrites files in place and never creates,
    renames or removes one, so the paths are those of the tree as [main]
    finds it. *)
Variable glob : string -> gmap string str -> list string.

Definition main (a : args) (w : world) : world * option exn :=
  let w0 :=
    if (0 <? verbose a)%nat
    then print (Updating_next (directory a) (version a)) w
    else w in
  main_loop a (glob (directory a) (files w0)) w0.

End Main.

End UpdateVersionNext.

(** ** The release tag, module [release] *)

Module Release.
Import Py.

(** Modelled from the spec: the class [Tag] of the module [release], which
    the tests import and which is not among the sources.  A tag is built
    from a string of the form X.Y.Z, X.Y.ZaN, X.Y.ZbN or X.Y.ZrcN; it holds
    the release series and the pre-release qualifier with its number, and
    its full text is printed back from them. *)
Inductive qualifier : Type :=
| Alpha (serial : N)
| Beta (serial : N)
| Candidate (serial : N)
| Final.

Record Tag : Type := MkTag {
  major : N;
  minor : N;
  micro : N;
  pre : qualifier
}.

(** Decimal numerals, through the digits of [Decimal.uint]. *)
Fixpoint chars_of_uint (u : Decimal.uint) : str :=
  match u with
  | Decimal.Nil => []
  | Decimal.D0 u => 48 :: chars_of_uint u
  | Decimal.D1 u => 49 :: chars_of_uint u
  | Decimal.D2 u => 50 :: chars_of_uint u
  | Decimal.D3 u => 51 :: chars_of_uint u
  | Decimal.D4 u => 52 :: chars_of_uint u
  | Decimal.D5 u => 53 :: chars_of_uint u
  | Decimal.D6 u => 54 :: chars_of_uint u
  | Decimal.D7 u => 55 :: chars_of_uint u
  | Decimal.D8 u => 56 :: chars_of_uint u
  | Decimal.D9 u => 57 :: chars_of_uint u
  end.



(** [str(n)] for a number. *)
Definition decimal (n : N) : str := chars_of_uint (N.to_uint n).







Definition qualifier_text (q : qualifier) : str :=
  match q with
  | Alpha n => lit "a" ++ decimal n
  | Beta n => lit "b" ++ decimal n
  | Candidate n => lit "rc" ++ decimal n
  | Final => []
  end.

(** Modelled from the spec: [str(tag)] of the absent class [Tag], the
    full textual form printed from the series and the qualifier. *)
Definition to_string (t : Tag) : str :=
  decimal (major t) ++ lit "." ++ decimal (minor t) ++ lit "." ++
  decimal (micro t) ++ qualifier_text (pre t).






(** Modelled from the spec: the predicate of section 4.1 on the absent
    class [Tag], a pre-release that requires the unreleased-doc check;
    alpha releases are exempt and a final release is no pre-release. *)
Definition requires_unreleased_doc_check (t : Tag) : bool :=
  match pre t with
  | Beta _ | Candidate _ => true
  | Alpha _ | Final => false
  end.

End Release.

(** ** The unreleased-doc check, module [run_release] *)

Module RunRelease.
Import Py Release.

(** The two fields of the release state that the check reads,
    [db["release"]] and [db["git_repo"]]. *)
Record ReleaseShelf : Type := Shelf {
  release : Tag;
  git_repo : str
}.

(** A docs archive: member name to text; the archives on disk, by path. *)
Abbreviation archive := (gmap str str).
Abbreviation disk := (gmap str archive).

(** Modelled from the spec: where the absent docs-archive inspector
    looks, [git_repo / <tag> / "docs" / "python-<tag>-docs-html.tar.bz2"],
    as [prepare_fake_docs] lays it out. *)
Definition docs_archive_path (db : ReleaseShelf) : str :=
  git_repo db ++ lit "/" ++ to_string (release db) ++ lit "/docs/python-" ++
  to_string (release db) ++ lit "-docs-html.tar.bz2".

(** Modelled from the spec: the text the absent check scans for, the
    marker that embeds the exact tag. *)
Definition unreleased_marker (t : Tag) : str :=
  lit "New in " ++ to_string t ++ lit " (unreleased)".

Inductive outcome : Type :=
| Passed
| AssertionError
| KeyError        (* the archive has no member index.html *)
| IndexError.     (* the prompt found no answer left *)

(** What a run leaves: how it ended, the answers not consumed and the
    questions put to the operator. *)
Record run : Type := Run {
  ended : outcome;
  answers_left : list str;
  prompts : nat
}.

(** Modelled from the spec: [check_doc_unreleased_version] of the module
    [run_release], which is not among the sources (its tests are).  The
    operator's answers come from a list, as [fake_answers] supplies them;
    only "yes" confirms. *)
Definition check_doc_unreleased_version (db : ReleaseShelf) (d : disk)
    (answers : list str) : run :=
  if requires_unreleased_doc_check (release db) then
    match d !! docs_archive_path db with
    | None => Run AssertionError answers 0
    | Some tar =>
        match tar !! lit "index.html" with
        | None => Run KeyError answers 0
        | Some text =>
            if contains (unreleased_marker (release db)) text then
              match answers with
              | [] => Run IndexError [] 1
              | answer :: rest =>
                  if decide (answer = lit "yes") then Run Passed rest 1
                  else Run AssertionError rest 1
              end
            else Run Passed answers 0
        end
    end
  else Run Passed answers 0.

(** The fixtures of [test_run_release.py]. *)
Definition prepare_fake_docs (tmp_path content : str) : disk :=
  {[ tmp_path ++ lit "/3.13.0rc1/docs/python-3.13.0rc1-docs-html.tar.bz2"
     := {[ lit "index.html" := content ]} ]}.

Definition tag_3_13_0rc1 : Tag := MkTag 3 13 0 (Candidate 1).
Definition tag_3_13_0a1 : Tag := MkTag 3 13 0 (Alpha 1).

End RunRelease.

(** ** The helpers of the tests, [tests/test_run_release.py] *)

Module TestHelpers.
Import Py.

(** The code run inside [with fake_answers(...)]: it returns, raises, or
    calls [input(question)] and goes on with the answer.  An exception
    raised by [input] is not caught by the code. *)
Inductive exc : Type :=
| IndexError           (* [answers_left[0]] on an empty list *)
| AssertionError
| Other (name : string).

Inductive prog (A : Type) : Type :=
| Ret (a : A)
| Throw (e : exc)
| Input (question : str) (k : str -> prog A).
Arguments Ret {A} a.
Arguments Throw {A} e.
Arguments Input {A} question k.

Fixpoint bind {A B} (m : prog A) (f : A -> prog B) : prog B :=
  match m with
  | Ret a => f a
  | Throw e => Throw e
  | Input q k => Input q (fun x => bind (k x) f)
  end.

(** What a run under the patched [input] leaves: the result, the
    answers not consumed and the lines printed. *)
Record fed (A : Type) : Type := Fed {
  result : A + exc;
  answers_left : list str;
  printed : list str
}.
Arguments Fed {A} result answers_left printed.
Arguments result {A} f.
Arguments answers_left {A} f.
Arguments printed {A} f.

(** Lines 62-64, [fake_input]: print the question and the first answer
    left, separated by [--], and pop that answer. *)
Fixpoint with_fake_input {A} (body : prog A) (answers_left : list str)
    (printed : list str) : fed A :=
  match body with
  | Ret a => Fed (inl a) answers_left printed
  | Throw e => Fed (inr e) answers_left printed
  | Input question k =>
      match answers_left with
      | [] => Fed (inr IndexError) [] printed
      | answer :: rest =>
          with_fake_input (k answer) rest
            (printed ++ [question ++ lit " -- " ++ answer])
      end
  end.

(** Lines 56-69, [fake_answers]: the body runs under the patched
    [input]; when it ends without an exception, all the answers must be
    gone. *)
Definition fake_answers {A} (answers : list str) (body : prog A) : fed A :=
  let r := with_fake_input body answers [] in
  match result r with
  | inl a =>
      match answers_left r with
      | [] => r
      | _ :: _ => Fed (inr AssertionError) (answers_left r) (printed r)
      end
  | inr _ => r
  end.

(** A body that puts the questions one after the other and goes on with
    the answers. *)
Fixpoint ask_all {A} (questions : list str) (k : list str -> prog A)
    : prog A :=
  match questions with
  | [] => k []
  | q :: questions' =>
      Input q (fun x => ask_all questions' (fun xs => k (x :: xs)))
  end.

(** The lines printed when the questions meet the answers in turn. *)
Definition transcript (questions answers : list str) : list str :=
  zip_with (fun q x => q ++ lit " -- " ++ x) questions answers.

(** [str.encode()], UTF-8, for one character; [None] is the
    [UnicodeEncodeError] for a surrogate. *)
Definition utf8_char (c : char) : option (list N) :=
  if c <? 128 then Some [c]
  else if c <? 2048 then Some [192 + c / 64; 128 + c mod 64]
  else if (55296 <=? c) && (c <=? 57343) then None
  else if c <? 65536 then
    Some [224 + c / 4096; 128 + (c / 64) mod 64; 128 + c mod 64]
  else if c <? 1114112 then
    Some [240 + c / 262144; 128 + (c / 4096) mod 64;
          128 + (c / 64) mod 64; 128 + c mod 64]
  else None.

Fixpoint utf8 (s : str) : option (list N) :=
  match s with
  | [] => Some []
  | c :: s' =>
      b ← utf8_char c;
      bs ← utf8 s';
      Some (b ++ bs)
  end.

(** Lines 51-53 of [prepare_fake_docs]: the member [index.html] gets the
    size [len(content)], counted in characters, and [addfile] copies that
    many bytes of [content.encode()]. *)
Definition fake_docs_member (content : str) : option (list N) :=
  bytes ← utf8 content;
  Some (take (length content) bytes).

End TestHelpers.

(** * Specifications *)

(** ** What a pattern matches *)

Module ReSpec.
Import Py Re.

(** [matches r s g g']: [r] matches exactly [s] and turns the groups [g]
    into [g']. *)
Inductive matches : regex -> str -> groups -> groups -> Prop :=
| M_Lit l g : matches (Lit l) l g g
| M_Star p s g : forallb p s = true -> matches (Star p) s g g
| M_Plus p s g : s ≠ [] -> forallb p s = true -> matches (Plus p) s g g
| M_Seq r1 r2 s1 s2 g g1 g2 :
    matches r1 s1 g g1 -> matches r2 s2 g1 g2 ->
    matches (Seq r1 r2) (s1 ++ s2) g g2
| M_Alt_l r1 r2 s g g' : matches r1 s g g' -> matches (Alt r1 r2) s g g'
| M_Alt_r r1 r2 s g g' : matches r2 s g g' -> matches (Alt r1 r2) s g g'
| M_Opt_some r s g g' : matches r s g g' -> matches (Opt r) s g g'
| M_Opt_none r g : matches (Opt r) [] g g
| M_Group n r s g g' :
    matches r s g g' -> matches (Group n r) s g (<[n := s]> g').

(** Matching without backtracking.
    [commits r s1 s2 g g']: on [s1 ++ s2] the matcher takes [s1] for [r]
    at its first try, whatever comes next in the pattern, as long as
    what comes next accepts [s2]. *)
Definition commits (r : regex) (s1 s2 : str) (g g' : groups) : Prop :=
  forall A (k : str -> groups -> option A) x,
    k s2 g' = Some x -> exec r (s1 ++ s2) g k = Some x.

(** [rejects r s g]: [r] matches no prefix of [s]. *)
Definition rejects (r : regex) (s : str) (g : groups) : Prop :=
  forall A (k : str -> groups -> option A), exec r s g k = None.

(** The class [p] does not go on into [s]. *)
Definition stops (p : char -> bool) (s : str) : Prop :=
  match s with
  | [] => True
  | c :: _ => p c = false
  end.

End ReSpec.

(** ** The directive grammar and the versions that are safe to insert *)

Module Grammar.
Import Py.

Definition all_space (s : str) : Prop := forallb is_space s = true.

Definition directive_names : list str :=
  [lit "versionadded"; lit "versionchanged"; lit "versionremoved";
   lit "deprecated"; lit "deprecated-removed"].

(** The grammar of section 4.4, for a whole line: optional white space,
    two dots and white space, a directive name, white space, [::], white
    space, the token [next], the remainder.  First what stands in front
    of the token. *)
Inductive directive_prefix : str -> Prop :=
| Prefix ws1 ws2 name ws3 ws4 :
    all_space ws1 -> all_space ws2 -> ws2 ≠ [] ->
    name ∈ directive_names ->
    all_space ws3 -> all_space ws4 ->
    directive_prefix
      (ws1 ++ lit ".." ++ ws2 ++ name ++ ws3 ++ lit "::" ++ ws4).

(** [directive_line line prefix remainder]: [line] is in the grammar,
    with [prefix] in front of the token and [remainder] behind it. *)
Inductive directive_line : str -> str -> str -> Prop :=
| Directive prefix remainder :
    directive_prefix prefix ->
    directive_line (prefix ++ lit "next" ++ remainder) prefix remainder.

Definition is_directive (line : str) : Prop :=
  exists prefix remainder, directive_line line prefix remainder.

(** Two strings differ at a position both have. *)
Fixpoint diverge (a b : str) : bool :=
  match a, b with
  | x :: a', y :: b' => if x =? y then diverge a' b' else true
  | _, _ => false
  end.

Definition no_line_break (s : str) : bool :=
  forallb (fun c => negb (c =? LF) && negb (c =? CR)) s.

(** A version that can be inserted without producing the token again or
    cutting the line: no line break in it, and behind its leading white
    space it parts from [next] before either ends. *)
Definition plain_version (v : str) : bool :=
  no_line_break v && diverge (lstrip v) (lit "next").

(** The part of [DIRECTIVE_RE] in front of the token, the group
    [before]. *)
Definition before_re : Re.regex :=
  match UpdateVersionNext.DIRECTIVE_RE with
  | Re.Seq r _ => r
  | r => r
  end.

End Grammar.

(** ** What a scan of a file computes *)

Module RewriterSpec.
Import Py Re UpdateVersionNext.

(** Whether the pattern matches the whole line. *)
Definition matched (line : str) : bool :=
  match fullmatch DIRECTIVE_RE line with
  | Some _ => true
  | None => false
  end.

(** The line appended for [line]: the groups around the version when the
    pattern matches, the line itself when it does not. *)
Definition rewrite_line (version line : str) : str :=
  match fullmatch DIRECTIVE_RE line with
  | Some m => default [] (m !! before) ++ version ++ default [] (m !! after)
  | None => line
  end.

Definition count_matched (file : list str) : nat :=
  length (List.filter matched file).

(** The events of a run that changes nothing: no file written and no
    file announced as updated. *)
Definition no_change (e : event) : bool :=
  match e with
  | Written _ _ => false
  | Stderr (Updating_file _ _) => false
  | Stderr _ => true
  end.

Definition is_write (e : event) : bool :=
  match e with
  | Written _ _ => true
  | Stderr _ => false
  end.


End RewriterSpec.

(** ** What the loop leaves in a file, and lines that open no directive *)

Module TreeSpec.
Import Py Re UpdateVersionNext.

(** The text the body of the loop leaves in a file that holds
    [content]: the accumulated lines when at least one was changed, the
    text as it is otherwise. *)
Definition left_in_file (a : args) (path : string) (content : str) : str :=
  match scan (version a) path 1 (readlines content) (0%nat, []) with
  | inr (S _, lines) => concat lines
  | _ => content
  end.

(** Behind its leading white space the line starts with two dots and a
    white space character. *)
Definition opens_directive (line : str) : bool :=
  match lstrip line with
  | 46 :: 46 :: c :: _ => is_space c
  | _ => false
  end.

Definition readable (tree : gmap string str) (path : string) : Prop :=
  is_Some (tree !! path).

(** The tree after the body of the loop has worked on the paths in
    turn, each of them a file of the tree. *)
Definition rewrite_tree (a : args) (paths : list string)
    (tree : gmap string str) : gmap string str :=
  foldl (fun t path => alter (left_in_file a path) path t) tree paths.

End TreeSpec.

(** ** Small trees and runs, for the examples *)

Module Fixtures.
Import Py UpdateVersionNext.

(** A traversal that yields every file of the tree. *)
Definition every_file (directory : string) (tree : gmap string str)
    : list string :=
  elements (dom tree).

Definition whatsnew : str :=
  lit "New features" ++ [LF] ++ lit ".. versionadded:: next" ++ [LF]
  ++ lit "   .. deprecated-removed:: next, 3.15" ++ [CR; LF].

Definition intro : str := lit "Introduction" ++ [LF] ++ lit "next" ++ [LF].

Definition docs : gmap string str :=
  <["Doc/whatsnew.rst" := whatsnew]> (<["Doc/intro.rst" := intro]> ∅).

Definition to_3_13 : args := Args (lit "3.13") "Doc" 2.

End Fixtures.

(** ** More traversals and runs, for the examples *)

Module MoreFixtures.
Import Py UpdateVersionNext Fixtures.

(** A traversal that yields one file only. *)
Definition only_whatsnew (directory : string) (tree : gmap string str)
    : list string :=
  ["Doc/whatsnew.rst"].

Definition quietly_to_3_13 : args := Args (lit "3.13") "Doc" 0.

End MoreFixtures.

(** * Properties *)

(** ** Strings *)

Module PyFacts.
Import Py.

Lemma strip_prefix_app (p s : str) : strip_prefix p (p ++ s) = Some s.
Proof.
  induction p as [|a p IH]; simpl; [done|].
  by rewrite N.eqb_refl.
Qed.

Lemma strip_prefix_Some (p s s' : str) :
  strip_prefix p s = Some s' -> s = p ++ s'.
Proof.
  revert s; induction p as [|a p IH]; intros s; simpl.
  - by intros [= ->].
  - destruct s as [|b s]; [done|].
    destruct (N.eqb_spec a b) as [->|]; [|done].
    intros H. by rewrite (IH _ H).
Qed.

End PyFacts.

(** ** The matcher against a declarative reading of the pattern *)

Module ReFacts.
Import Py Re ReSpec PyFacts.

Lemma star_greedy_sound {A} p (s : str) (k : str -> option A) x :
  star_greedy p s k = Some x ->
  exists s1 s2, s = s1 ++ s2 /\ forallb p s1 = true /\ k s2 = Some x.
Proof.
  induction s as [|c s IH]; simpl.
  - intros H. by exists [], [].
  - destruct (p c) eqn:Hc.
    + destruct (star_greedy p s k) as [y|] eqn:Hs.
      * intros [= ->]. destruct (IH eq_refl) as (s1 & s2 & -> & H1 & H2).
        exists (c :: s1), s2. simpl. by rewrite Hc, H1.
      * intros H. by exists [], (c :: s).
    + intros H. by exists [], (c :: s).
Qed.

Lemma take_app_diff (s1 s2 : str) :
  take (length (s1 ++ s2) - length s2) (s1 ++ s2) = s1.
Proof.
  rewrite length_app.
  replace (length s1 + length s2 - length s2)%nat with (length s1) by lia.
  by rewrite take_app_length.
Qed.

(** Whatever the matcher returns comes from a split of the input into a
    part matched by [r] and a rest accepted by the continuation. *)
Lemma exec_sound {A} r : forall (s : str) g (k : str -> groups -> option A) x,
  exec r s g k = Some x ->
  exists s1 s2 g', s = s1 ++ s2 /\ matches r s1 g g' /\ k s2 g' = Some x.
Proof.
  induction r as [l|p|p|r1 IH1 r2 IH2|r1 IH1 r2 IH2|r1 IH1|n r1 IH1];
    intros s g k x; simpl.
  - destruct (strip_prefix l s) as [s'|] eqn:Hl; [|done].
    intros H. apply strip_prefix_Some in Hl as ->.
    exists l, s', g. eauto using matches.
  - intros H. apply star_greedy_sound in H as (s1 & s2 & -> & H1 & H2).
    exists s1, s2, g. eauto using matches.
  - destruct s as [|c s]; [done|]. destruct (p c) eqn:Hc; [|done].
    intros H. apply star_greedy_sound in H as (s1 & s2 & -> & H1 & H2).
    exists (c :: s1), s2, g. split; [done|]. split; [|done].
    constructor; [done|]. simpl. by rewrite Hc, H1.
  - intros H. apply IH1 in H as (s1 & s2 & g1 & -> & H1 & H).
    apply IH2 in H as (s3 & s4 & g2 & -> & H2 & H).
    exists (s1 ++ s3), s4, g2. rewrite <- app_assoc. eauto using matches.
  - destruct (exec r1 s g k) as [y|] eqn:H1.
    + intros [= ->]. apply IH1 in H1 as (s1 & s2 & g' & -> & H1 & H).
      exists s1, s2, g'. eauto using matches.
    + intros H. apply IH2 in H as (s1 & s2 & g' & -> & H2 & H).
      exists s1, s2, g'. eauto using matches.
  - destruct (exec r1 s g k) as [y|] eqn:H1.
    + intros [= ->]. apply IH1 in H1 as (s1 & s2 & g' & -> & H1 & H).
      exists s1, s2, g'. eauto using matches.
    + intros H. exists [], s, g. eauto using matches.
  - intros H. apply IH1 in H as (s1 & s2 & g' & -> & H1 & H).
    rewrite take_app_diff in H.
    exists s1, s2, (<[n := s1]> g'). eauto using matches.
Qed.

Lemma fullmatch_sound r (s : str) m :
  fullmatch r s = Some m -> matches r s ∅ m.
Proof.
  unfold fullmatch. intros H.
  apply exec_sound in H as (s1 & s2 & g' & -> & H1 & H).
  destruct s2; [|done]. injection H as ->. by rewrite app_nil_r.
Qed.


Lemma star_greedy_commits {A} p (s1 s2 : str) (k : str -> option A) x :
  forallb p s1 = true -> stops p s2 -> k s2 = Some x ->
  star_greedy p (s1 ++ s2) k = Some x.
Proof.
  intros H1 H2 Hk. induction s1 as [|c s1 IH]; simpl in *.
  - destruct s2 as [|c s2]; simpl in *; [done|]. by rewrite H2.
  - apply andb_true_iff in H1 as [-> H1]. by rewrite (IH H1).
Qed.

Lemma commits_Lit l s2 g : commits (Lit l) l s2 g g.
Proof. intros A k x Hk. simpl. by rewrite strip_prefix_app. Qed.

Lemma commits_Star p s1 s2 g :
  forallb p s1 = true -> stops p s2 -> commits (Star p) s1 s2 g g.
Proof. intros H1 H2 A k x Hk. simpl. by apply star_greedy_commits. Qed.

Lemma commits_Plus p s1 s2 g :
  s1 ≠ [] -> forallb p s1 = true -> stops p s2 -> commits (Plus p) s1 s2 g g.
Proof.
  intros Hne H1 H2 A k x Hk. destruct s1 as [|c s1]; [done|]. simpl in *.
  apply andb_true_iff in H1 as [-> H1]. by apply star_greedy_commits.
Qed.

Lemma commits_Seq r1 r2 s1 s2 s3 g g1 g2 :
  commits r1 s1 (s2 ++ s3) g g1 -> commits r2 s2 s3 g1 g2 ->
  commits (Seq r1 r2) (s1 ++ s2) s3 g g2.
Proof.
  intros H1 H2 A k x Hk. simpl. rewrite <- app_assoc.
  apply H1. by apply H2.
Qed.

Lemma commits_Alt_l r1 r2 s1 s2 g g' :
  commits r1 s1 s2 g g' -> commits (Alt r1 r2) s1 s2 g g'.
Proof. intros H A k x Hk. simpl. by rewrite (H _ _ _ Hk). Qed.

Lemma commits_Alt_r r1 r2 s1 s2 g g' :
  rejects r1 (s1 ++ s2) g -> commits r2 s1 s2 g g' ->
  commits (Alt r1 r2) s1 s2 g g'.
Proof. intros H1 H2 A k x Hk. simpl. rewrite H1. by apply H2. Qed.

Lemma commits_Opt_some r s1 s2 g g' :
  commits r s1 s2 g g' -> commits (Opt r) s1 s2 g g'.
Proof. intros H A k x Hk. simpl. by rewrite (H _ _ _ Hk). Qed.

Lemma commits_Opt_none r s2 g :
  rejects r s2 g -> commits (Opt r) [] s2 g g.
Proof. intros H A k x Hk. simpl. by rewrite H. Qed.

Lemma commits_Group n r s1 s2 g g' :
  commits r s1 s2 g g' -> commits (Group n r) s1 s2 g (<[n := s1]> g').
Proof.
  intros H A k x Hk. simpl. apply H. by rewrite take_app_diff.
Qed.

Lemma rejects_Lit l (s : str) g : strip_prefix l s = None -> rejects (Lit l) s g.
Proof. intros H A k. simpl. by rewrite H. Qed.

Lemma rejects_Seq_l r1 r2 (s : str) g : rejects r1 s g -> rejects (Seq r1 r2) s g.
Proof. intros H A k. simpl. apply H. Qed.

Lemma rejects_Group n r (s : str) g : rejects r s g -> rejects (Group n r) s g.
Proof. intros H A k. simpl. apply H. Qed.

Lemma commits_fullmatch r (s : str) g :
  commits r s [] ∅ g -> fullmatch r s = Some g.
Proof.
  intros H. unfold fullmatch. rewrite <- (app_nil_r s) at 1. by apply H.
Qed.

End ReFacts.


(** ** The pattern [DIRECTIVE_RE] and the directive grammar *)

Module DirectiveFacts.
Import Py Re ReSpec Grammar PyFacts ReFacts UpdateVersionNext.

Lemma DIRECTIVE_RE_parts :
  DIRECTIVE_RE
  = (before_re ⋅ Lit (lit "next") ⋅ Group after (Star any_char))%re.
Proof. reflexivity. Qed.

Lemma space_not_minus c : is_space c = true -> (45 =? c) = false.
Proof.
  intros H. destruct (N.eqb_spec 45 c) as [<-|]; [|done]. discriminate H.
Qed.

Lemma minus_removed_rejected (ws s : str) g n :
  all_space ws ->
  rejects (Group n (Lit (lit "-removed"))) (ws ++ lit "::" ++ s) g.
Proof.
  intros Hws. apply rejects_Group, rejects_Lit.
  destruct ws as [|c ws]; [done|].
  apply andb_true_iff in Hws as [Hc _].
  change (strip_prefix (lit "-removed") ((c :: ws) ++ lit "::" ++ s))
    with (if 45 =? c
          then strip_prefix (lit "removed") (ws ++ lit "::" ++ s) else None).
  by rewrite (space_not_minus _ Hc).
Qed.

Lemma name_not_space name (s : str) :
  name ∈ directive_names -> stops is_space (name ++ s).
Proof.
  unfold directive_names. intros Hn.
  repeat (apply elem_of_cons in Hn as [->|Hn]);
    [ | | | | | by apply elem_of_nil in Hn ]; reflexivity.
Qed.

(** The directive name, with the white space and [::] that follow it. *)
Lemma name_commits name (ws3 t : str) g :
  name ∈ directive_names -> all_space ws3 ->
  exists g',
    commits
      (Group 2
         ((Lit (lit "version") ⋅
           Group 3 (Lit (lit "added") ∥ Lit (lit "changed")
                    ∥ Lit (lit "removed")))
          ∥ (Lit (lit "deprecated") ⋅ Opt (Group 4 (Lit (lit "-removed"))))))%re
      name (ws3 ++ lit "::" ++ t) g g'
    /\ g' !! before = g !! before /\ g' !! after = g !! after.
Proof.
  intros Hn H3. unfold directive_names in Hn.
  repeat (apply elem_of_cons in Hn as [->|Hn]);
    [ | | | | | by apply elem_of_nil in Hn ]; eexists;
    (split; [apply commits_Group|]).
  - change (lit "versionadded") with (lit "version" ++ lit "added").
    apply commits_Alt_l. eapply commits_Seq; [apply commits_Lit|].
    apply commits_Group, commits_Alt_l, commits_Lit.
  - by rewrite !lookup_insert_ne.
  - change (lit "versionchanged") with (lit "version" ++ lit "changed").
    apply commits_Alt_l. eapply commits_Seq; [apply commits_Lit|].
    apply commits_Group, commits_Alt_r; [by apply rejects_Lit|].
    apply commits_Alt_l, commits_Lit.
  - by rewrite !lookup_insert_ne.
  - change (lit "versionremoved") with (lit "version" ++ lit "removed").
    apply commits_Alt_l. eapply commits_Seq; [apply commits_Lit|].
    apply commits_Group, commits_Alt_r; [by apply rejects_Lit|].
    apply commits_Alt_r; [by apply rejects_Lit|]. apply commits_Lit.
  - by rewrite !lookup_insert_ne.
  - change (lit "deprecated") with (lit "deprecated" ++ []).
    apply commits_Alt_r; [by apply rejects_Seq_l, rejects_Lit|].
    eapply commits_Seq; [apply commits_Lit|].
    apply commits_Opt_none. by apply minus_removed_rejected.
  - by rewrite !lookup_insert_ne.
  - change (lit "deprecated-removed")
      with (lit "deprecated" ++ lit "-removed").
    apply commits_Alt_r; [by apply rejects_Seq_l, rejects_Lit|].
    eapply commits_Seq; [apply commits_Lit|].
    apply commits_Opt_some, commits_Group, commits_Lit.
  - by rewrite !lookup_insert_ne.
Qed.

(** In front of anything that does not start with white space, the
    matcher takes a prefix of the grammar whole for the group [before]. *)
Lemma prefix_commits p (t : str) :
  directive_prefix p -> stops is_space t ->
  exists g, commits before_re p t ∅ g
            /\ g !! before = Some p /\ g !! after = None.
Proof.
  intros [ws1 ws2 name ws3 ws4 H1 H2 Hne Hn H3 H4] Ht.
  destruct (name_commits name ws3 (ws4 ++ t) ∅ Hn H3) as (g2 & Hc & Hb & Ha).
  eexists. split; [|split].
  - apply commits_Group.
    eapply commits_Seq; [apply commits_Star; [done|reflexivity]|].
    eapply commits_Seq; [apply commits_Lit|].
    eapply commits_Seq.
    { apply commits_Plus; [done|done|].
      rewrite <- app_assoc. by apply name_not_space. }
    eapply commits_Seq.
    { rewrite <- !app_assoc. apply Hc. }
    eapply commits_Seq; [apply commits_Star; [done|reflexivity]|].
    eapply commits_Seq; [apply commits_Lit|].
    by apply commits_Star.
  - by rewrite lookup_insert_eq.
  - rewrite lookup_insert_ne by done. by rewrite Ha.
Qed.

Lemma forallb_any_char (s : str) : forallb any_char s = true.
Proof. apply forallb_forall. by intros. Qed.

(** A line of the grammar is matched, and the two named groups are the
    prefix and the remainder of the grammar. *)
Lemma directive_line_fullmatch line prefix remainder :
  directive_line line prefix remainder ->
  exists m, fullmatch DIRECTIVE_RE line = Some m
            /\ m !! before = Some prefix /\ m !! after = Some remainder.
Proof.
  intros [p rest Hp].
  destruct (prefix_commits p ((lit "next" ++ rest) ++ []) Hp)
    as (g & Hc & Hb & Ha); [reflexivity|].
  eexists. split; [|split].
  - apply commits_fullmatch. rewrite DIRECTIVE_RE_parts.
    eapply commits_Seq; [apply Hc|].
    eapply commits_Seq; [apply commits_Lit|].
    apply commits_Group, commits_Star; [apply forallb_any_char|done].
  - rewrite lookup_insert_ne by done. done.
  - by rewrite lookup_insert_eq.
Qed.

Ltac invert_matches :=
  repeat match goal with
         | H : matches (Lit _) _ _ _ |- _ => inversion H; subst; clear H
         | H : matches (Star _) _ _ _ |- _ => inversion H; subst; clear H
         | H : matches (Plus _) _ _ _ |- _ => inversion H; subst; clear H
         | H : matches (Seq _ _) _ _ _ |- _ => inversion H; subst; clear H
         | H : matches (Alt _ _) _ _ _ |- _ => inversion H; subst; clear H
         | H : matches (Opt _) _ _ _ |- _ => inversion H; subst; clear H
         | H : matches (Group _ _) _ _ _ |- _ => inversion H; subst; clear H
         end.

(** What the pattern matches is a line of the grammar. *)
Lemma fullmatch_directive_line line m :
  fullmatch DIRECTIVE_RE line = Some m -> is_directive line.
Proof.
  intros H. apply fullmatch_sound in H. unfold DIRECTIVE_RE in H.
  invert_matches; do 2 eexists; apply Directive, Prefix; try done;
    unfold directive_names.
  - apply list_elem_of_here.
  - apply list_elem_of_further, list_elem_of_here.
  - do 2 apply list_elem_of_further. apply list_elem_of_here.
  - do 4 apply list_elem_of_further. apply list_elem_of_here.
  - do 3 apply list_elem_of_further. apply list_elem_of_here.
Qed.

(** The pattern decides the grammar. *)
Lemma fullmatch_iff line :
  is_Some (fullmatch DIRECTIVE_RE line) <-> is_directive line.
Proof.
  split.
  - intros [m H]. by eapply fullmatch_directive_line.
  - intros (b & a & H).
    destruct (directive_line_fullmatch _ _ _ H) as (m & Hm & _). by exists m.
Qed.

Lemma fullmatch_None line :
  fullmatch DIRECTIVE_RE line = None <-> ~ is_directive line.
Proof. by rewrite <- fullmatch_iff, <- eq_None_not_Some. Qed.

(** A line has at most one reading in the grammar. *)
Lemma directive_line_unique line b a b' a' :
  directive_line line b a -> directive_line line b' a' -> b = b' /\ a = a'.
Proof.
  intros H H'.
  apply directive_line_fullmatch in H as (m & Hm & Hb & Ha).
  apply directive_line_fullmatch in H' as (m' & Hm' & Hb' & Ha').
  split; congruence.
Qed.

Lemma directive_line_inv line b a :
  directive_line line b a ->
  directive_prefix b /\ line = b ++ lit "next" ++ a.
Proof. by intros []. Qed.

(** Behind a prefix of the grammar and its white space, a line of the
    grammar goes on with the token. *)
Lemma prefix_then_token p field b a :
  directive_prefix p -> stops is_space field ->
  directive_line (p ++ field) b a -> b = p /\ field = lit "next" ++ a.
Proof.
  intros Hp Hf H. apply directive_line_inv in H as [Hb Heq].
  destruct (prefix_commits p field Hp Hf) as (g & Hc & _).
  destruct (prefix_commits b (lit "next" ++ a) Hb) as (g' & Hc' & _);
    [reflexivity|].
  pose proof (Hc _ (fun s _ => Some s) field eq_refl) as E.
  pose proof (Hc' _ (fun s _ => Some s) (lit "next" ++ a) eq_refl) as E'.
  rewrite <- Heq, E in E'. injection E' as ->.
  split; [|done]. by apply app_inv_tail in Heq.
Qed.

End DirectiveFacts.

(** ** One line of the scan *)

Module LineFacts.
Import Py Re ReSpec Grammar RewriterSpec PyFacts ReFacts DirectiveFacts.
Import UpdateVersionNext.

Lemma matched_iff line : matched line = true <-> is_directive line.
Proof.
  rewrite <- fullmatch_iff. unfold matched.
  destruct (fullmatch DIRECTIVE_RE line); split; intros H;
    first [done | by eexists | by destruct H].
Qed.

Lemma matched_false_iff line : matched line = false <-> ~ is_directive line.
Proof. rewrite <- matched_iff. by destruct (matched line). Qed.

Lemma rewrite_line_directive version line b a :
  directive_line line b a -> rewrite_line version line = b ++ version ++ a.
Proof.
  intros H. apply directive_line_fullmatch in H as (m & Hm & Hb & Ha).
  unfold rewrite_line. by rewrite Hm, Hb, Ha.
Qed.

Lemma rewrite_line_other version line :
  ~ is_directive line -> rewrite_line version line = line.
Proof.
  intros H. apply fullmatch_None in H. unfold rewrite_line. by rewrite H.
Qed.

(** The step of the scan never raises: the two named groups take part in
    every match. *)
Lemma scan_line_spec version line n lines :
  scan_line version line (n, lines)
  = Some ((if matched line then S n else n),
          lines ++ [rewrite_line version line]).
Proof.
  unfold scan_line, matched, rewrite_line.
  destruct (fullmatch DIRECTIVE_RE line) as [m|] eqn:Hm; [|done].
  destruct (fullmatch_directive_line _ _ Hm) as (b & a & H).
  apply directive_line_fullmatch in H as (m' & Hm' & Hb & Ha).
  assert (m' = m) as -> by congruence. by rewrite Hb, Ha.
Qed.

Lemma scan_line_directive version line b a n lines :
  directive_line line b a ->
  scan_line version line (n, lines) = Some (S n, lines ++ [b ++ version ++ a]).
Proof.
  intros H. rewrite scan_line_spec, (rewrite_line_directive _ _ _ _ H).
  assert (matched line = true) as -> by (apply matched_iff; by do 2 eexists).
  done.
Qed.

Lemma scan_line_other version line n lines :
  ~ is_directive line ->
  scan_line version line (n, lines) = Some (n, lines ++ [line]).
Proof.
  intros H. rewrite scan_line_spec, (rewrite_line_other _ _ H).
  apply matched_false_iff in H. by rewrite H.
Qed.

Lemma prefix_versionchanged : directive_prefix (lit ".. versionchanged:: ").
Proof.
  apply (Prefix [] [32] (lit "versionchanged") [] [32]); try done.
  unfold directive_names. apply list_elem_of_further, list_elem_of_here.
Qed.

Lemma prefix_deprecated_removed ws1 ws2 ws3 ws4 :
  all_space ws1 -> all_space ws2 -> ws2 ≠ [] ->
  all_space ws3 -> all_space ws4 ->
  directive_prefix
    (ws1 ++ lit ".." ++ ws2 ++ lit "deprecated-removed" ++ ws3 ++ lit "::"
     ++ ws4).
Proof.
  intros. apply Prefix; try done.
  unfold directive_names. do 4 apply list_elem_of_further.
  apply list_elem_of_here.
Qed.

End LineFacts.

(** ** The scan of a file and the body of the loop *)

Module ScanFacts.
Import Py Re ReSpec Grammar RewriterSpec PyFacts ReFacts DirectiveFacts.
Import UpdateVersionNext LineFacts.

(** The scan never raises; it counts the matched lines and appends one
    line for each line read, in order. *)
Lemma scan_spec version path file : forall lineno n lines,
  scan version path lineno file (n, lines)
  = inr ((n + count_matched file)%nat,
         lines ++ (rewrite_line version <$> file)).
Proof.
  induction file as [|line file IH]; intros lineno n lines.
  - simpl. by rewrite Nat.add_0_r, app_nil_r.
  - cbn [scan]. rewrite scan_line_spec, IH.
    unfold count_matched. cbn [List.filter fmap list_fmap].
    rewrite <- app_assoc. cbn [app].
    destruct (matched line); cbn [length]; do 2 f_equal; lia.
Qed.

Lemma count_matched_0 file :
  count_matched file = 0%nat <-> Forall (fun line => ~ is_directive line) file.
Proof.
  unfold count_matched. induction file as [|line file IH]; simpl.
  - split; [constructor|done].
  - rewrite Forall_cons, <- IH, <- matched_false_iff.
    destruct (matched line); simpl; split; try done.
    + by intros [? ?].
    + by intros [_ ?].
Qed.

Lemma count_matched_S file n :
  count_matched file = S n -> Exists is_directive file.
Proof.
  unfold count_matched. revert n.
  induction file as [|line file IH]; intros n; simpl; [done|].
  destruct (matched line) eqn:E.
  - intros _. apply Exists_cons_hd. by apply matched_iff.
  - intros H. apply Exists_cons_tl. by eapply IH.
Qed.

(** The body of the loop, for a file that can be read. *)
Lemma process_file_spec a path w content :
  files w !! path = Some content ->
  process_file a path w
  = match count_matched (readlines content) with
    | O =>
        (if (1 <? verbose a)%nat then print (Unchanged_file path) w else w,
         None)
    | S n =>
        (write path (rewrite_line (version a) <$> readlines content)
           (if (0 <? verbose a)%nat
            then print (Updating_file path (S n)) w else w),
         None)
    end.
Proof.
  intros H. unfold process_file. rewrite H, scan_spec. simpl.
  by destruct (count_matched (readlines content)).
Qed.

Lemma process_file_missing a path w :
  files w !! path = None -> process_file a path w = (w, Some (OSError path)).
Proof. intros H. unfold process_file. by rewrite H. Qed.

End ScanFacts.

(** ** Lines of text: reading back what was written *)

Module TextFacts.
Import Py Re ReSpec Grammar RewriterSpec PyFacts ReFacts DirectiveFacts.
Import UpdateVersionNext LineFacts.

Lemma universal_newlines_no_CR_bounded (n : nat) : forall s : str,
  (length s <= n)%nat -> CR ∉ universal_newlines s.
Proof.
  induction n as [|n IH]; intros s Hn.
  - destruct s; [|simpl in Hn; lia]. apply not_elem_of_nil.
  - destruct s as [|c s]; [apply not_elem_of_nil|].
    simpl in Hn. cbn [universal_newlines].
    destruct (N.eqb_spec c CR) as [->|Hc].
    + apply not_elem_of_cons. split; [done|].
      destruct s as [|d s]; [apply not_elem_of_nil|].
      simpl in Hn. destruct (d =? LF); apply IH; simpl; lia.
    + apply not_elem_of_cons. split; [done|]. apply IH. lia.
Qed.

Lemma universal_newlines_no_CR (s : str) : CR ∉ universal_newlines s.
Proof. by apply (universal_newlines_no_CR_bounded (length s)). Qed.

Lemma universal_newlines_id (s : str) : CR ∉ s -> universal_newlines s = s.
Proof.
  induction s as [|c s IH]; [done|].
  intros [Hc Hs]%not_elem_of_cons. cbn [universal_newlines].
  destruct (N.eqb_spec c CR) as [->|_]; [done|]. by rewrite IH.
Qed.

Lemma concat_split_lines (s : str) : concat (split_lines s) = s.
Proof.
  induction s as [|c s IH]; [done|]. cbn [split_lines].
  destruct (c =? LF).
  - simpl. by rewrite IH.
  - destruct (split_lines s) as [|l ls]; simpl in *; by rewrite <- IH.
Qed.






Lemma elem_of_concat_lines (c : char) (ls : list str) :
  c ∉ concat ls <-> Forall (fun l => c ∉ l) ls.
Proof.
  induction ls as [|l ls IH]; simpl.
  - split; [constructor|intros _; apply not_elem_of_nil].
  - by rewrite not_elem_of_app, Forall_cons, IH.
Qed.

Lemma readlines_no_CR content :
  Forall (fun l => CR ∉ l) (readlines content).
Proof.
  apply elem_of_concat_lines. unfold readlines.
  rewrite concat_split_lines. apply universal_newlines_no_CR.
Qed.


End TextFacts.

(** ** Rewritten lines *)

Module RewriteFacts.
Import Py Re ReSpec Grammar RewriterSpec PyFacts ReFacts DirectiveFacts.
Import UpdateVersionNext LineFacts TextFacts.


Lemma all_space_app (s t : str) :
  all_space s -> all_space t -> all_space (s ++ t).
Proof.
  unfold all_space. rewrite forallb_app. intros -> ->. done.
Qed.

Lemma directive_prefix_app_space b ws :
  directive_prefix b -> all_space ws -> directive_prefix (b ++ ws).
Proof.
  intros [ws1 ws2 name ws3 ws4 H1 H2 Hne Hn H3 H4] Hws.
  replace ((ws1 ++ lit ".." ++ ws2 ++ name ++ ws3 ++ lit "::" ++ ws4) ++ ws)
    with (ws1 ++ lit ".." ++ ws2 ++ name ++ ws3 ++ lit "::" ++ ws4 ++ ws)
    by (by rewrite <- !app_assoc).
  apply Prefix; try done. by apply all_space_app.
Qed.

Lemma lstrip_split (v : str) :
  exists ws, v = ws ++ lstrip v /\ all_space ws.
Proof.
  induction v as [|c v (ws & E & Hws)]; [by exists []|].
  cbn [lstrip]. destruct (is_space c) eqn:Hc.
  - exists (c :: ws). split; [simpl; by rewrite <- E|].
    unfold all_space. simpl. by rewrite Hc.
  - by exists [].
Qed.

Lemma lstrip_stops (v : str) : stops is_space (lstrip v).
Proof.
  induction v as [|c v IH]; [done|]. cbn [lstrip].
  by destruct (is_space c) eqn:Hc.
Qed.

Lemma diverge_app (x y s t : str) :
  diverge x y = true -> x ++ s <> y ++ t.
Proof.
  revert y. induction x as [|a x IH]; intros [|b y]; simpl; try done.
  destruct (N.eqb_spec a b) as [->|Hab].
  - intros H [= E]. by eapply IH.
  - intros _ [= E _]. done.
Qed.

Lemma diverge_nonempty (x y : str) : diverge x y = true -> x ≠ [].
Proof. by destruct x. Qed.

(** With a plain version in place of the token, the line is no longer in
    the grammar. *)
Lemma plain_version_settles v b a :
  plain_version v = true -> directive_prefix b ->
  ~ is_directive (b ++ v ++ a).
Proof.
  intros [_ Hv]%andb_true_iff Hb (b' & a' & H).
  destruct (lstrip_split v) as (ws & E & Hws).
  pose proof (lstrip_stops v) as Hs.
  pose proof (diverge_nonempty _ _ Hv) as Hne.
  assert (b ++ v ++ a = (b ++ ws) ++ lstrip v ++ a) as E'.
  { rewrite E at 1. by rewrite <- !app_assoc. }
  rewrite E' in H.
  apply prefix_then_token in H as [_ H].
  - by apply diverge_app in H.
  - by apply directive_prefix_app_space.
  - destruct (lstrip v); [done|]. exact Hs.
Qed.

Lemma rewrite_line_settled v l :
  plain_version v = true -> ~ is_directive (rewrite_line v l).
Proof.
  intros Hv. destruct (matched l) eqn:E.
  - apply matched_iff in E as (b & a & H).
    rewrite (rewrite_line_directive _ _ _ _ H).
    apply plain_version_settles; [done|].
    by apply directive_line_inv in H as [? _].
  - apply matched_false_iff in E. by rewrite rewrite_line_other.
Qed.

(** A character that is neither in the line nor in the version is not in
    the rewritten line. *)
Lemma rewrite_line_avoids (c : char) v l :
  c ∉ v -> c ∉ l -> c ∉ rewrite_line v l.
Proof.
  intros Hv Hl. destruct (matched l) eqn:E.
  - apply matched_iff in E as (b & a & H).
    rewrite (rewrite_line_directive _ _ _ _ H).
    apply directive_line_inv in H as [_ ->].
    rewrite !not_elem_of_app in Hl. rewrite !not_elem_of_app. tauto.
  - apply matched_false_iff in E. by rewrite rewrite_line_other.
Qed.






End RewriteFacts.

(** ** The loop over the files *)

Module MainFacts.
Import Py Re ReSpec Grammar RewriterSpec PyFacts ReFacts DirectiveFacts.
Import UpdateVersionNext LineFacts ScanFacts TextFacts RewriteFacts.

Lemma world_eta w : World (files w) (trace w) = w.
Proof. by destruct w. Qed.

(** A file without a line of the grammar is left alone, whichever file
    the body of the loop works on, and nothing is written to it. *)
Lemma process_file_frame a path w w' r p c :
  process_file a path w = (w', r) ->
  files w !! p = Some c -> count_matched (readlines c) = 0%nat ->
  files w' !! p = Some c
  /\ exists out, trace w' = trace w ++ out
                 /\ forall ls, Written p ls ∉ out.
Proof.
  intros H Hp Hc. destruct (files w !! path) as [content|] eqn:E.
  - rewrite (process_file_spec _ _ _ _ E) in H.
    destruct (count_matched (readlines content)) as [|n] eqn:Hn.
    + injection H as <- <-. destruct (1 <? verbose a)%nat; simpl.
      * split; [done|]. eexists. split; [done|].
        intros ls [?|?%elem_of_nil]%elem_of_cons; done.
      * split; [done|]. exists []. split; [by rewrite app_nil_r|].
        intros ls. apply not_elem_of_nil.
    + assert (path ≠ p) as Hne by (intros ->; congruence).
      injection H as <- <-. simpl. rewrite lookup_insert_ne by done.
      destruct (0 <? verbose a)%nat; simpl.
      * split; [done|]. eexists. split; [by rewrite <- app_assoc|].
        intros ls. cbn [app]. rewrite !elem_of_cons, elem_of_nil.
        intros [?|[[= ? _]|[]]]; done.
      * split; [done|]. eexists. split; [done|].
        intros ls. rewrite !elem_of_cons, elem_of_nil.
        intros [[= ? _]|[]]; done.
  - rewrite (process_file_missing _ _ _ E) in H. injection H as <- <-.
    split; [done|]. exists []. split; [by rewrite app_nil_r|].
    intros ls. apply not_elem_of_nil.
Qed.

Lemma main_loop_frame a paths : forall w w' r p c,
  main_loop a paths w = (w', r) ->
  files w !! p = Some c -> count_matched (readlines c) = 0%nat ->
  files w' !! p = Some c
  /\ exists out, trace w' = trace w ++ out
                 /\ forall ls, Written p ls ∉ out.
Proof.
  induction paths as [|path paths IH]; intros w w' r p c H Hp Hc.
  - injection H as <- <-. split; [done|].
    exists []. split; [by rewrite app_nil_r|]. intros ls. apply not_elem_of_nil.
  - cbn [main_loop] in H.
    destruct (process_file a path w) as [w1 [e|]] eqn:E.
    + injection H as <- <-. by eapply process_file_frame.
    + destruct (process_file_frame _ _ _ _ _ _ _ E Hp Hc)
        as (Hp1 & out1 & Ht1 & Hw1).
      destruct (IH _ _ _ _ _ H Hp1 Hc) as (Hp' & out & Ht & Hw).
      split; [done|]. exists (out1 ++ out).
      split; [by rewrite Ht, Ht1, <- app_assoc|].
      intros ls [?|?]%elem_of_app; [by eapply Hw1|by eapply Hw].
Qed.

(** The program changes what files hold, never which files there are. *)
Lemma process_file_dom a path w w' r :
  process_file a path w = (w', r) -> dom (files w') = dom (files w).
Proof.
  intros H. destruct (files w !! path) as [content|] eqn:E.
  - rewrite (process_file_spec _ _ _ _ E) in H.
    destruct (count_matched (readlines content)) as [|n].
    + injection H as <- <-. by destruct (1 <? verbose a)%nat.
    + injection H as <- <-. simpl.
      assert (dom (<[path:=concat (rewrite_line (version a) <$>
                                    readlines content)]> (files w))
              = dom (files w)) as Hd
        by (apply dom_insert_lookup_L; by eexists).
      by destruct (0 <? verbose a)%nat.
  - rewrite (process_file_missing _ _ _ E) in H. by injection H as <- <-.
Qed.

Lemma main_loop_dom a paths : forall w w' r,
  main_loop a paths w = (w', r) -> dom (files w') = dom (files w).
Proof.
  induction paths as [|path paths IH]; intros w w' r H.
  - by injection H as <- <-.
  - cbn [main_loop] in H.
    destruct (process_file a path w) as [w1 [e|]] eqn:E.
    + injection H as <- <-. by eapply process_file_dom.
    + rewrite (IH _ _ _ H). by eapply process_file_dom.
Qed.


Lemma process_file_no_TypeError a path w w' e :
  process_file a path w = (w', Some e) ->
  files w !! path = None /\ w' = w /\ e = OSError path.
Proof.
  intros H. destruct (files w !! path) as [content|] eqn:E.
  - rewrite (process_file_spec _ _ _ _ E) in H.
    by destruct (count_matched (readlines content)).
  - rewrite (process_file_missing _ _ _ E) in H. by injection H as <- <-.
Qed.


End MainFacts.

(** ** The claims about single lines *)

Module LineClaims.
Import Py Re ReSpec Grammar RewriterSpec PyFacts ReFacts DirectiveFacts.
Import UpdateVersionNext LineFacts.

(** C1: the step of the scan changes a line exactly when the whole line
    is in the directive grammar, and then the line becomes the captured
    prefix, the target version and the captured remainder; so
    [.. versionchanged:: next] with target 3.13 becomes
    [.. versionchanged:: 3.13], and [.. note:: next] is left alone
    whatever the target. *)
Theorem C1_directive_lines_are_rewritten (version line : str) (n : nat)
    (lines : list str) :
  (is_Some (fullmatch DIRECTIVE_RE line) <-> is_directive line)
  /\ ((exists prefix remainder,
       directive_line line prefix remainder
       /\ scan_line version line (n, lines)
          = Some (S n, lines ++ [prefix ++ version ++ remainder]))
   \/ (~ is_directive line
       /\ scan_line version line (n, lines) = Some (n, lines ++ [line])))
  /\ scan_line (lit "3.13") (lit ".. versionchanged:: next" ++ [LF]) (n, lines)
     = Some (S n, lines ++ [lit ".. versionchanged:: 3.13" ++ [LF]])
  /\ scan_line version (lit ".. note:: next") (n, lines)
     = Some (n, lines ++ [lit ".. note:: next"]).
Proof.
  split; [apply fullmatch_iff|]. split; [|split].
  - destruct (fullmatch DIRECTIVE_RE line) as [m|] eqn:Hm.
    + left. destruct (fullmatch_directive_line _ _ Hm) as (b & a & H).
      exists b, a. split; [done|]. by apply scan_line_directive.
    + right. apply fullmatch_None in Hm. split; [done|].
      by apply scan_line_other.
  - apply (scan_line_directive _ _ (lit ".. versionchanged:: ") [LF]).
    change (lit ".. versionchanged:: next" ++ [LF])
      with (lit ".. versionchanged:: " ++ lit "next" ++ [LF]).
    apply Directive, prefix_versionchanged.
  - apply scan_line_other, fullmatch_None. reflexivity.
Qed.

(** C2, as stated, fails: the line [.. versionchanged:: nextgen] is
    rewritten, to [.. versionchanged:: 3.13gen] for the target 3.13. *)
Lemma C2_nextgen_is_rewritten :
  scan_line (lit "3.13") (lit ".. versionchanged:: nextgen" ++ [LF])
    (0%nat, [])
  = Some (1%nat, [lit ".. versionchanged:: 3.13gen" ++ [LF]])
  /\ scan_line (lit "3.13") (lit ".. versionchanged:: nextgen" ++ [LF])
       (0%nat, [])
     <> Some (0%nat, [lit ".. versionchanged:: nextgen" ++ [LF]]).
Proof.
  assert (scan_line (lit "3.13") (lit ".. versionchanged:: nextgen" ++ [LF])
            (0%nat, [])
          = Some (1%nat, [lit ".. versionchanged:: 3.13gen" ++ [LF]])) as E.
  { change (lit ".. versionchanged:: nextgen" ++ [LF])
      with (lit ".. versionchanged:: " ++ lit "next" ++ lit "gen" ++ [LF]).
    by rewrite (scan_line_directive _ _ (lit ".. versionchanged:: ")
                  (lit "gen" ++ [LF]))
      by apply Directive, prefix_versionchanged. }
  split; [done|]. rewrite E. discriminate.
Qed.

(** C2, amended: behind the directive, [::] and the white space, a line
    is rewritten exactly when the text that follows begins with the four
    characters of [next]; what follows them, with or without a separator,
    is the remainder and is kept. *)
Theorem C2_token_is_a_prefix (version p field : str) (n : nat)
    (lines : list str) :
  directive_prefix p -> stops is_space field ->
  scan_line version (p ++ field) (n, lines)
  = match strip_prefix (lit "next") field with
    | Some rest => Some (S n, lines ++ [p ++ version ++ rest])
    | None => Some (n, lines ++ [p ++ field])
    end.
Proof.
  intros Hp Hf. destruct (strip_prefix (lit "next") field) as [rest|] eqn:E.
  - apply strip_prefix_Some in E as ->.
    apply scan_line_directive. by constructor.
  - apply scan_line_other. intros (b & a & H).
    destruct (prefix_then_token _ _ _ _ Hp Hf H) as [_ ->].
    by rewrite strip_prefix_app in E.
Qed.

Lemma C2_token_is_a_prefix_witness :
  scan_line (lit "3.13") (lit ".. versionchanged:: " ++ lit "nextgen" ++ [LF])
    (0%nat, [])
  = Some (1%nat,
          [] ++ [lit ".. versionchanged:: " ++ lit "3.13" ++ lit "gen" ++ [LF]]).
Proof.
  apply (C2_token_is_a_prefix (lit "3.13") (lit ".. versionchanged:: ")
           (lit "nextgen" ++ [LF]) 0 []).
  - apply prefix_versionchanged.
  - reflexivity.
Defined.

(** C3: on a [deprecated-removed] line of the grammar only the token
    behind [::] gives way to the target version; the text after it, a
    second version included, is kept as it is. *)
Theorem C3_deprecated_removed_first_argument (version ws1 ws2 ws3 ws4
    rest : str) (n : nat) (lines : list str) :
  all_space ws1 -> all_space ws2 -> ws2 ≠ [] ->
  all_space ws3 -> all_space ws4 ->
  scan_line version
    ((ws1 ++ lit ".." ++ ws2 ++ lit "deprecated-removed" ++ ws3 ++ lit "::"
      ++ ws4) ++ lit "next" ++ rest) (n, lines)
  = Some (S n,
          lines ++
          [(ws1 ++ lit ".." ++ ws2 ++ lit "deprecated-removed" ++ ws3
            ++ lit "::" ++ ws4) ++ version ++ rest])
  /\ scan_line (lit "3.13") (lit ".. deprecated-removed:: next, 3.15" ++ [LF])
       (n, lines)
     = Some (S n, lines ++ [lit ".. deprecated-removed:: 3.13, 3.15" ++ [LF]]).
Proof.
  intros H1 H2 Hne H3 H4. split.
  - apply scan_line_directive. constructor.
    by apply prefix_deprecated_removed.
  - change (lit ".. deprecated-removed:: next, 3.15" ++ [LF])
      with (lit ".. deprecated-removed:: " ++ lit "next" ++ lit ", 3.15"
            ++ [LF]).
    by rewrite (scan_line_directive _ _ (lit ".. deprecated-removed:: ")
                  (lit ", 3.15" ++ [LF]))
      by (apply Directive;
          by apply (prefix_deprecated_removed [] [32] [] [32])).
Qed.

Lemma C3_deprecated_removed_first_argument_witness :
  scan_line (lit "3.13")
    (([] ++ lit ".." ++ [32] ++ lit "deprecated-removed" ++ [] ++ lit "::"
      ++ [32]) ++ lit "next" ++ lit ", 3.15" ++ [LF]) (0%nat, [])
  = Some (1%nat,
          [] ++
          [([] ++ lit ".." ++ [32] ++ lit "deprecated-removed" ++ []
            ++ lit "::" ++ [32]) ++ lit "3.13" ++ lit ", 3.15" ++ [LF]]).
Proof.
  apply (C3_deprecated_removed_first_argument (lit "3.13") [] [32] [] [32]
           (lit ", 3.15" ++ [LF]) 0 []); try reflexivity.
  discriminate.
Defined.

End LineClaims.

(** ** The claims about files *)

Module FileClaims.
Import Py Re ReSpec Grammar RewriterSpec PyFacts ReFacts DirectiveFacts.
Import UpdateVersionNext LineFacts ScanFacts TextFacts RewriteFacts MainFacts.
Import Fixtures.

Section Run.

Variable glob : string -> gmap string str -> list string.

(** C5: a file in which no line is in the directive grammar holds the
    same text after the run and no write to it takes place; and the body
    of the loop writes a file, in full and with the accumulated lines,
    only when the scan has counted at least one changed line. *)
Theorem C5_file_without_directive_is_not_written (a : args) :
  (forall w w' r path content,
      main glob a w = (w', r) ->
      files w !! path = Some content ->
      Forall (fun line => ~ is_directive line) (readlines content) ->
      files w' !! path = Some content
      /\ exists out, trace w' = trace w ++ out
                     /\ forall lines, Written path lines ∉ out)
  /\ (forall w w' r path,
         process_file a path w = (w', r) ->
         exists out, trace w' = trace w ++ out /\
           ((files w' = files w /\ List.filter is_write out = [])
            \/ exists content n lines,
                 files w !! path = Some content
                 /\ scan (version a) path 1 (readlines content) (0%nat, [])
                    = inr (S n, lines)
                 /\ files w' = <[path := concat lines]> (files w)
                 /\ List.filter is_write out = [Written path lines])).
Proof.
  split.
  - intros w w' r path content H Hp Hc. apply count_matched_0 in Hc.
    unfold main in H. destruct (0 <? verbose a)%nat.
    + destruct (main_loop_frame _ _ _ _ _ path content H Hp Hc)
        as (Hp' & out & Ht & Hw).
      split; [done|]. eexists. split.
      * rewrite Ht. simpl. by rewrite <- app_assoc.
      * intros ls. cbn [app]. apply not_elem_of_cons. by split.
    + by eapply main_loop_frame.
  - intros w w' r path H. destruct (files w !! path) as [content|] eqn:E.
    + rewrite (process_file_spec _ _ _ _ E) in H.
      destruct (count_matched (readlines content)) as [|n] eqn:Hn.
      * injection H as <- <-. destruct (1 <? verbose a)%nat.
        -- eexists. split; [done|]. by left.
        -- exists []. split; [by rewrite app_nil_r|]. by left.
      * injection H as <- <-.
        assert (scan (version a) path 1 (readlines content) (0%nat, [])
                = inr (S n, rewrite_line (version a) <$> readlines content))
          as Hscan by (by rewrite scan_spec, Hn).
        destruct (0 <? verbose a)%nat; simpl.
        -- eexists. split; [by rewrite <- app_assoc|]. right.
           by exists content, n, (rewrite_line (version a) <$> readlines content).
        -- eexists. split; [done|]. right.
           by exists content, n, (rewrite_line (version a) <$> readlines content).
    + rewrite (process_file_missing _ _ _ E) in H. injection H as <- <-.
      exists []. split; [by rewrite app_nil_r|]. by left.
Qed.


(** The traversal looks at the names in the tree, not at what the files
    hold. *)
Hypothesis glob_names : forall directory tree tree',
  dom tree = dom tree' -> glob directory tree = glob directory tree'.


End Run.


Lemma C5_file_without_directive_is_not_written_witness :
  files (main every_file to_3_13 (World docs [])).1 !! "Doc/intro.rst"
  = Some intro.
Proof.
  destruct (C5_file_without_directive_is_not_written every_file to_3_13)
    as [H _].
  refine (proj1 (H (World docs []) _ _ "Doc/intro.rst" intro _ _ _)).
  - apply surjective_pairing.
  - vm_compute. reflexivity.
  - apply count_matched_0. vm_compute. reflexivity.
Defined.





End FileClaims.

(** ** Tags: printing and parsing *)

Module ReleaseFacts.
Import Py ReSpec Release.









End ReleaseFacts.

(** ** The claims about tags and about the unreleased-doc check *)

Module ReleaseClaims.
Import Py ReSpec Release RunRelease ReleaseFacts.



(** C6: for a tag that requires the check and a docs archive whose front
    page holds the unreleased marker of this very tag, the check asks the
    operator once; the answer "yes" lets it pass and any other answer
    ends it with an assertion error.  A front page without the marker
    passes and nobody is asked.  So for 3.13.0rc1:
    "New in 3.13.0rc1 (unreleased)" with "no" fails, with "yes" passes,
    and "New in 3.13" passes without a question. *)
Theorem C6_unreleased_marker_asks_operator :
  (forall db d tar text,
      requires_unreleased_doc_check (release db) = true ->
      d !! docs_archive_path db = Some tar ->
      tar !! lit "index.html" = Some text ->
      (contains (unreleased_marker (release db)) text = true ->
       forall answer rest,
         check_doc_unreleased_version db d (answer :: rest)
         = Run (if decide (answer = lit "yes") then Passed
                else AssertionError) rest 1)
      /\ (contains (unreleased_marker (release db)) text = false ->
          forall answers,
            check_doc_unreleased_version db d answers = Run Passed answers 0))
  /\ (forall tmp_path,
         let db := Shelf tag_3_13_0rc1 tmp_path in
         check_doc_unreleased_version db
           (prepare_fake_docs tmp_path
              (lit "<div>New in 3.13.0rc1 (unreleased)</div>")) [lit "no"]
         = Run AssertionError [] 1
         /\ check_doc_unreleased_version db
              (prepare_fake_docs tmp_path
                 (lit "<div>New in 3.13.0rc1 (unreleased)</div>")) [lit "yes"]
            = Run Passed [] 1
         /\ check_doc_unreleased_version db
              (prepare_fake_docs tmp_path (lit "<div>New in 3.13</div>")) []
            = Run Passed [] 0).
Proof.
  assert (forall db d tar text,
      requires_unreleased_doc_check (release db) = true ->
      d !! docs_archive_path db = Some tar ->
      tar !! lit "index.html" = Some text ->
      (contains (unreleased_marker (release db)) text = true ->
       forall answer rest,
         check_doc_unreleased_version db d (answer :: rest)
         = Run (if decide (answer = lit "yes") then Passed
                else AssertionError) rest 1)
      /\ (contains (unreleased_marker (release db)) text = false ->
          forall answers,
            check_doc_unreleased_version db d answers = Run Passed answers 0))
    as General.
  { intros db d tar text Hreq Hd Ht. unfold check_doc_unreleased_version.
    rewrite Hreq, Hd, Ht. split; intros ->; [|done].
    intros answer rest. by destruct (decide (answer = lit "yes")). }
  split; [exact General|].
  intros tmp_path db.
  assert (forall content,
             prepare_fake_docs tmp_path content !! docs_archive_path db
             = Some {[ lit "index.html" := content ]}) as Hd.
  { intros content. unfold prepare_fake_docs.
    replace (docs_archive_path db)
      with (tmp_path ++ lit "/3.13.0rc1/docs/python-3.13.0rc1-docs-html.tar.bz2")
      by (unfold docs_archive_path; simpl; by rewrite <- ?app_assoc).
    apply lookup_singleton_eq. }
  repeat split.
  - destruct (General db _ _ (lit "<div>New in 3.13.0rc1 (unreleased)</div>")
                eq_refl (Hd _) (lookup_singleton_eq _ _)) as [H _].
    by rewrite H.
  - destruct (General db _ _ (lit "<div>New in 3.13.0rc1 (unreleased)</div>")
                eq_refl (Hd _) (lookup_singleton_eq _ _)) as [H _].
    by rewrite H.
  - destruct (General db _ _ (lit "<div>New in 3.13</div>")
                eq_refl (Hd _) (lookup_singleton_eq _ _)) as [_ H].
    by rewrite H.
Qed.

Lemma C6_unreleased_marker_asks_operator_witness :
  check_doc_unreleased_version (Shelf tag_3_13_0rc1 (lit "/tmp"))
    (prepare_fake_docs (lit "/tmp")
       (lit "<div>New in 3.13.0rc1 (unreleased)</div>")) [lit "no"]
  = Run AssertionError [] 1.
Proof.
  destruct C6_unreleased_marker_asks_operator as [_ H].
  exact (proj1 (H (lit "/tmp"))).
Defined.

(** C7: for an alpha tag the check passes at once: nothing is asked and
    no answer is consumed, whether or not a docs archive is there. *)
Theorem C7_alpha_is_exempt (db : ReleaseShelf) (d : disk)
    (answers : list str) (serial : N) :
  pre (release db) = Alpha serial ->
  check_doc_unreleased_version db d answers = Run Passed answers 0.
Proof.
  intros H. unfold check_doc_unreleased_version,
    requires_unreleased_doc_check. by rewrite H.
Qed.

Lemma C7_alpha_is_exempt_witness :
  check_doc_unreleased_version (Shelf tag_3_13_0a1 (lit "/tmp")) ∅ []
  = Run Passed [] 0.
Proof.
  apply (C7_alpha_is_exempt (Shelf tag_3_13_0a1 (lit "/tmp")) ∅ [] 1).
  reflexivity.
Defined.

(** C8: for a tag that requires the check, a missing docs archive ends
    the check with an assertion error, before any question is asked. *)
Theorem C8_missing_archive_fails (db : ReleaseShelf) (d : disk)
    (answers : list str) :
  requires_unreleased_doc_check (release db) = true ->
  d !! docs_archive_path db = None ->
  check_doc_unreleased_version db d answers = Run AssertionError answers 0.
Proof.
  intros Hreq Hd. unfold check_doc_unreleased_version. by rewrite Hreq, Hd.
Qed.

Lemma C8_missing_archive_fails_witness :
  check_doc_unreleased_version (Shelf tag_3_13_0rc1 (lit "/tmp")) ∅ []
  = Run AssertionError [] 0.
Proof.
  apply (C8_missing_archive_fails (Shelf tag_3_13_0rc1 (lit "/tmp")) ∅ []);
    reflexivity.
Defined.

End ReleaseClaims.

(** * Further properties of the code *)

(** ** Single lines *)

Module LineExtras.
Import Py Re ReSpec Grammar RewriterSpec TreeSpec PyFacts ReFacts.
Import DirectiveFacts UpdateVersionNext LineFacts TextFacts RewriteFacts.

Lemma lstrip_spaces (ws s : str) :
  all_space ws -> lstrip (ws ++ s) = lstrip s.
Proof.
  induction ws as [|c ws IH]; [done|].
  intros [Hc Hws]%andb_true_iff. cbn [app lstrip]. rewrite Hc. by apply IH.
Qed.

Lemma directive_opens line : is_directive line -> opens_directive line = true.
Proof.
  intros (b & a & H). apply directive_line_inv in H as [Hb ->].
  destruct Hb as [ws1 ws2 name ws3 ws4 H1 H2 Hne _ _ _].
  unfold opens_directive. rewrite <- !app_assoc, lstrip_spaces by done.
  destruct ws2 as [|c ws2]; [done|].
  apply andb_true_iff in H2 as [Hc _]. exact Hc.
Qed.

(** X1: in every match of [DIRECTIVE_RE] both named groups take part,
    and [before], the token [next] and [after] make up the whole line;
    so the sum on line 71 never meets a missing group. *)
Theorem X1_groups_cover_the_line (line : str) (m : groups) :
  fullmatch DIRECTIVE_RE line = Some m ->
  exists b a,
    m !! before = Some b /\ m !! after = Some a
    /\ line = b ++ lit "next" ++ a.
Proof.
  intros Hm. destruct (fullmatch_directive_line _ _ Hm) as (b & a & H).
  pose proof (directive_line_inv _ _ _ H) as [_ E].
  apply directive_line_fullmatch in H as (m' & Hm' & Hb & Ha).
  assert (m' = m) as -> by congruence. by exists b, a.
Qed.

Lemma X1_groups_cover_the_line_witness :
  exists b a,
    default ∅ (fullmatch DIRECTIVE_RE
                 (lit "  .. deprecated :: next (soon)" ++ [LF])) !! before
    = Some b
    /\ default ∅ (fullmatch DIRECTIVE_RE
                    (lit "  .. deprecated :: next (soon)" ++ [LF])) !! after
       = Some a
    /\ lit "  .. deprecated :: next (soon)" ++ [LF] = b ++ lit "next" ++ a.
Proof.
  apply (X1_groups_cover_the_line
           (lit "  .. deprecated :: next (soon)" ++ [LF])).
  vm_compute. reflexivity.
Defined.

(** X2: a line that, behind its leading white space, does not start
    with two dots and a white space character is appended as it is and
    not counted, whatever the version and whatever else it holds. *)
Theorem X2_line_without_opener_is_kept (version line : str) (n : nat)
    (lines : list str) :
  opens_directive line = false ->
  scan_line version line (n, lines) = Some (n, lines ++ [line]).
Proof.
  intros H. apply scan_line_other. intros Hd.
  apply directive_opens in Hd. congruence.
Qed.

Lemma X2_line_without_opener_is_kept_witness :
  scan_line (lit "3.13") (lit "..versionadded:: next" ++ [LF]) (0%nat, [])
  = Some (0%nat, [] ++ [lit "..versionadded:: next" ++ [LF]]).
Proof.
  apply (X2_line_without_opener_is_kept (lit "3.13")
           (lit "..versionadded:: next" ++ [LF]) 0 []).
  reflexivity.
Defined.

(** X3: with the version [next] every line is appended as it is, though
    a line of the grammar is still counted as changed; and [next] is the
    only version with which a line of the grammar comes out unchanged. *)
Theorem X3_next_is_the_only_neutral_version (version line : str) (n : nat)
    (lines : list str) :
  scan_line (lit "next") line (n, lines)
  = Some ((if matched line then S n else n), lines ++ [line])
  /\ (is_directive line ->
      scan_line version line (n, lines) = Some (S n, lines ++ [line]) ->
      version = lit "next").
Proof.
  split.
  - rewrite scan_line_spec. do 3 f_equal.
    destruct (matched line) eqn:E.
    + apply matched_iff in E as (b & a & H).
      rewrite (rewrite_line_directive _ _ _ _ H).
      by apply directive_line_inv in H as [_ ->].
    + apply matched_false_iff in E. by rewrite rewrite_line_other.
  - intros (b & a & H) E. rewrite (scan_line_directive _ _ _ _ _ _ H) in E.
    apply directive_line_inv in H as [_ ->].
    assert (lines ++ [b ++ version ++ a] = lines ++ [b ++ lit "next" ++ a])
      as E' by congruence.
    apply app_inj_tail in E' as [_ E'].
    apply (app_inv_head b) in E'. by apply (app_inv_tail a) in E'.
Qed.

Lemma X3_next_is_the_only_neutral_version_witness :
  scan_line (lit "next") (lit ".. versionadded:: next" ++ [LF]) (0%nat, [])
  = Some (1%nat, [lit ".. versionadded:: next" ++ [LF]]).
Proof.
  exact (proj1 (X3_next_is_the_only_neutral_version (lit "3.13")
                  (lit ".. versionadded:: next" ++ [LF]) 0 [])).
Defined.

Lemma snoc_cases (a : str) : a = [] \/ exists a' x, a = a' ++ [x].
Proof.
  destruct a as [|x a _] using rev_ind; [by left|]. right. by exists a, x.
Qed.

(** X4: the line break at the end of a line stays at its end, for every
    line and every version; and a rewritten line is as long as the line
    it comes from, less the four characters of the token, plus the
    version. *)
Theorem X4_line_end_and_length (version l : str) (n : nat)
    (lines : list str) :
  (exists n' l',
      scan_line version (l ++ [LF]) (n, lines)
      = Some (n', lines ++ [l' ++ [LF]]))
  /\ (forall line, is_directive line ->
        exists out,
          scan_line version line (n, lines) = Some (S n, lines ++ [out])
          /\ (length out + 4 = length line + length version)%nat).
Proof.
  split.
  - rewrite scan_line_spec. destruct (matched (l ++ [LF])) eqn:E.
    + apply matched_iff in E as (b & a & H).
      rewrite (rewrite_line_directive _ _ _ _ H).
      apply directive_line_inv in H as [_ H].
      destruct (snoc_cases a) as [->|(a' & x & ->)].
      * change (lit "next" ++ []) with (lit "nex" ++ [116]) in H.
        rewrite app_assoc in H. by apply app_inj_tail in H as [_ ?].
      * rewrite !app_assoc in H. apply app_inj_tail in H as [_ <-].
        exists (S n), (b ++ version ++ a'). by rewrite <- !app_assoc.
    + apply matched_false_iff in E. rewrite rewrite_line_other by done.
      by exists n, l.
  - intros line (b & a & H). exists (b ++ version ++ a).
    split; [by apply scan_line_directive|].
    apply directive_line_inv in H as [_ ->].
    rewrite !length_app. change (length (lit "next")) with 4%nat. lia.
Qed.

Lemma X4_line_end_and_length_witness :
  exists out,
    scan_line (lit "3.14.0") (lit ".. versionremoved:: next" ++ [LF])
      (0%nat, [])
    = Some (1%nat, [] ++ [out])
    /\ (length out + 4
        = length (lit ".. versionremoved:: next" ++ [LF])
          + length (lit "3.14.0"))%nat.
Proof.
  apply (X4_line_end_and_length (lit "3.14.0") [] 0 []).
  apply fullmatch_iff. vm_compute. by eexists.
Defined.

(** X5: a line produced with a plain version is appended as it is by
    every later scan, whatever version that scan inserts. *)
Theorem X5_rewritten_line_is_final (v1 v2 line out : str) (n n1 m : nat)
    (lines ls : list str) :
  plain_version v1 = true ->
  scan_line v1 line (n, lines) = Some (n1, lines ++ [out]) ->
  scan_line v2 out (m, ls) = Some (m, ls ++ [out]).
Proof.
  intros Hv H. rewrite scan_line_spec in H. injection H as _ H.
  apply app_inv_head in H. injection H as <-.
  apply scan_line_other. by apply rewrite_line_settled.
Qed.

Lemma X5_rewritten_line_is_final_witness :
  scan_line (lit "next") (lit ".. versionadded:: 3.13" ++ [LF]) (7%nat, [])
  = Some (7%nat, [] ++ [lit ".. versionadded:: 3.13" ++ [LF]]).
Proof.
  apply (X5_rewritten_line_is_final (lit "3.13") (lit "next")
           (lit ".. versionadded:: next" ++ [LF])
           (lit ".. versionadded:: 3.13" ++ [LF]) 0 1 7 [] []).
  - reflexivity.
  - vm_compute. reflexivity.
Defined.

End LineExtras.

(** ** Whole runs *)

Module TreeFacts.
Import Py Re ReSpec Grammar RewriterSpec TreeSpec PyFacts ReFacts.
Import DirectiveFacts UpdateVersionNext LineFacts ScanFacts TextFacts.
Import RewriteFacts MainFacts.

Lemma left_in_file_spec a path content :
  left_in_file a path content
  = match count_matched (readlines content) with
    | O => content
    | S _ => concat (rewrite_line (version a) <$> readlines content)
    end.
Proof.
  unfold left_in_file. rewrite scan_spec. simpl.
  by destruct (count_matched (readlines content)).
Qed.

(** The body of the loop on a file that can be read: what it leaves in
    the tree and what it adds to the trace. *)
Lemma process_file_readable a path w content :
  files w !! path = Some content ->
  exists out,
    process_file a path w
    = (World (alter (left_in_file a path) path (files w)) (trace w ++ out),
       None)
    /\ (forall q ls, Written q ls ∈ out ->
          q = path /\ count_matched (readlines content) ≠ 0%nat
          /\ ls = rewrite_line (version a) <$> readlines content)
    /\ (verbose a = 0%nat -> Forall (fun e => is_write e = true) out).
Proof.
  intros E. rewrite (process_file_spec _ _ _ _ E).
  assert (alter (left_in_file a path) path (files w)
          = <[path := left_in_file a path content]> (files w)) as ->.
  { apply map_eq. intros k. rewrite lookup_alter, lookup_insert.
    case_decide; [subst; by rewrite E|done]. }
  rewrite left_in_file_spec.
  destruct (count_matched (readlines content)) as [|n] eqn:Hn.
  - rewrite insert_id by done.
    exists (if (1 <? verbose a)%nat
            then [Stderr (Unchanged_file path)] else []).
    split; [|split].
    + destruct (1 <? verbose a)%nat; [done|].
      by rewrite app_nil_r, world_eta.
    + intros q ls Hin. destruct (1 <? verbose a)%nat.
      * by apply list_elem_of_singleton in Hin.
      * by apply elem_of_nil in Hin.
    + by intros ->.
  - exists ((if (0 <? verbose a)%nat
             then [Stderr (Updating_file path (S n))] else [])
            ++ [Written path (rewrite_line (version a) <$> readlines content)]).
    split; [|split].
    + destruct (0 <? verbose a)%nat; unfold write, print; simpl; [|done].
      by rewrite <- app_assoc.
    + intros q ls Hin. destruct (0 <? verbose a)%nat; cbn [app] in Hin;
        rewrite ?elem_of_cons, elem_of_nil in Hin.
      * by destruct Hin as [?|[[= -> ->]|[]]].
      * by destruct Hin as [[= -> ->]|[]].
    + intros ->. simpl. by repeat constructor.
Qed.

Lemma rewrite_tree_dom a paths : forall tree,
  dom (rewrite_tree a paths tree) = dom tree.
Proof.
  unfold rewrite_tree.
  induction paths as [|p paths IH]; intros tree; [done|].
  simpl. by rewrite IH, dom_alter_L.
Qed.

Lemma readable_dom (tree tree' : gmap string str) path :
  dom tree = dom tree' -> readable tree path -> readable tree' path.
Proof.
  unfold readable. intros Hd H. apply elem_of_dom. rewrite <- Hd.
  by apply elem_of_dom.
Qed.

(** When every path can be read the loop runs to its end, and the tree
    it leaves is the one rewritten file by file. *)
Lemma main_loop_readable a paths : forall w,
  Forall (readable (files w)) paths ->
  exists out,
    main_loop a paths w
    = (World (rewrite_tree a paths (files w)) (trace w ++ out), None)
    /\ (forall q ls, Written q ls ∈ out -> q ∈ paths)
    /\ (verbose a = 0%nat -> Forall (fun e => is_write e = true) out).
Proof.
  induction paths as [|p paths IH]; intros w Hr.
  - exists []. split; [|split].
    + simpl. by rewrite app_nil_r, world_eta.
    + intros q ls Hin. by apply elem_of_nil in Hin.
    + done.
  - apply Forall_cons in Hr as [[c Hp] Hr].
    destruct (process_file_readable a p w c Hp) as (out1 & E & Hw1 & Hq1).
    cbn [main_loop]. rewrite E.
    destruct (IH (World (alter (left_in_file a p) p (files w))
                    (trace w ++ out1))) as (out2 & E2 & Hw2 & Hq2).
    { simpl. eapply Forall_impl; [exact Hr|].
      intros q. apply readable_dom. by rewrite dom_alter_L. }
    rewrite E2. exists (out1 ++ out2). split; [|split].
    + simpl. by rewrite <- app_assoc.
    + intros q ls [Hin|Hin]%elem_of_app.
      * destruct (Hw1 _ _ Hin) as [-> _]. apply list_elem_of_here.
      * apply list_elem_of_further. by eapply Hw2.
    + intros Hv. apply Forall_app. split; [by apply Hq1|by apply Hq2].
Qed.

Lemma main_loop_app a ps1 ps2 w w1 :
  main_loop a ps1 w = (w1, None) ->
  main_loop a (ps1 ++ ps2) w = main_loop a ps2 w1.
Proof.
  revert w. induction ps1 as [|p ps1 IH]; intros w H.
  - by injection H as ->.
  - cbn [app main_loop] in *.
    destruct (process_file a p w) as [wp [e|]]; [done|]. by apply IH.
Qed.

(** A run that ends with an exception ends at the first path that
    cannot be read. *)
Lemma main_loop_raises a paths : forall w w' e,
  main_loop a paths w = (w', Some e) ->
  exists ps1 p ps2,
    paths = ps1 ++ p :: ps2 /\ e = OSError p /\ files w !! p = None
    /\ Forall (readable (files w)) ps1
    /\ main_loop a ps1 w = (w', None).
Proof.
  induction paths as [|q paths IH]; intros w w' e H; [done|].
  cbn [main_loop] in H.
  destruct (process_file a q w) as [wq [e'|]] eqn:E.
  - injection H as <- <-.
    apply process_file_no_TypeError in E as (E & -> & ->).
    by exists [], q, paths.
  - destruct (IH _ _ _ H) as (ps1 & p & ps2 & -> & -> & Hp & Hr & Hl).
    pose proof (process_file_dom _ _ _ _ _ E) as Hd.
    exists (q :: ps1), p, ps2. split; [done|]. split; [done|].
    split; [|split].
    + apply not_elem_of_dom. rewrite <- Hd. by apply not_elem_of_dom.
    + apply Forall_cons. split.
      * destruct (files w !! q) as [c|] eqn:Eq; [by eexists|].
        by rewrite (process_file_missing _ _ _ Eq) in E.
      * eapply Forall_impl; [exact Hr|]. intros x. by apply readable_dom.
    + cbn [main_loop]. by rewrite E.
Qed.

Lemma rewrite_tree_other a paths path : forall tree,
  path ∉ paths -> rewrite_tree a paths tree !! path = tree !! path.
Proof.
  unfold rewrite_tree.
  induction paths as [|p paths IH]; intros tree Hn; [done|].
  apply not_elem_of_cons in Hn as [Hne Hn]. simpl.
  rewrite IH by done. by rewrite lookup_alter_ne.
Qed.

End TreeFacts.

Module RunFacts.
Import Py Re ReSpec Grammar RewriterSpec TreeSpec PyFacts ReFacts.
Import DirectiveFacts UpdateVersionNext LineFacts ScanFacts TextFacts.
Import RewriteFacts MainFacts TreeFacts.

Lemma main_loop_ok a paths : forall w w',
  main_loop a paths w = (w', None) -> Forall (readable (files w)) paths.
Proof.
  induction paths as [|p paths IH]; intros w w' H; [constructor|].
  cbn [main_loop] in H.
  destruct (process_file a p w) as [wp [e|]] eqn:E; [done|].
  apply Forall_cons. split.
  - destruct (files w !! p) as [c|] eqn:Ep; [by eexists|].
    by rewrite (process_file_missing _ _ _ Ep) in E.
  - eapply Forall_impl; [by eapply IH|].
    intros q. apply readable_dom. by eapply process_file_dom.
Qed.

(** Every run of the loop: it works through a front part of the paths,
    all of them files that can be read, and ends either behind the last
    path or at a path that cannot be read. *)
Lemma main_loop_shape a paths w w' r :
  main_loop a paths w = (w', r) ->
  exists ps rest out,
    paths = ps ++ rest /\ Forall (readable (files w)) ps
    /\ w' = World (rewrite_tree a ps (files w)) (trace w ++ out)
    /\ (forall q ls, Written q ls ∈ out -> q ∈ ps)
    /\ (verbose a = 0%nat -> Forall (fun e => is_write e = true) out)
    /\ match r with
       | None => rest = []
       | Some e =>
           exists p rest', rest = p :: rest' /\ e = OSError p
                           /\ files w !! p = None
       end.
Proof.
  intros H. destruct r as [e|].
  - destruct (main_loop_raises _ _ _ _ _ H)
      as (ps1 & p & ps2 & -> & -> & Hp & Hr & Hl).
    destruct (main_loop_readable a ps1 w Hr) as (out & E & Hw & Hq).
    rewrite E in Hl. injection Hl as <-.
    exists ps1, (p :: ps2), out. repeat split; try done. by exists p, ps2.
  - pose proof (main_loop_ok _ _ _ _ H) as Hr.
    destruct (main_loop_readable a paths w Hr) as (out & E & Hw & Hq).
    rewrite E in H. injection H as <-.
    exists paths, [], out. by rewrite app_nil_r.
Qed.

Lemma main_unfold glob a w :
  exists pre,
    main glob a w
    = main_loop a (glob (directory a) (files w))
        (World (files w) (trace w ++ pre))
    /\ Forall (fun e => is_write e = false /\ no_change e = true) pre
    /\ (verbose a = 0%nat -> pre = []).
Proof.
  unfold main. destruct (verbose a) as [|n]; simpl.
  - exists []. by rewrite app_nil_r, world_eta.
  - exists [Stderr (Updating_next (directory a) (version a))].
    split; [done|]. split; [by repeat constructor|done].
Qed.


End RunFacts.

Module TreeExtras.
Import Py Re ReSpec Grammar RewriterSpec TreeSpec PyFacts ReFacts.
Import DirectiveFacts UpdateVersionNext LineFacts ScanFacts TextFacts.
Import RewriteFacts MainFacts TreeFacts RunFacts Fixtures.

Section Run.

Variable glob : string -> gmap string str -> list string.

(** X6: a run never creates, renames or removes a file, whether it ends
    normally or with an exception: the tree has the same names after it;
    and what was on the trace stays there. *)
Theorem X6_names_of_the_tree_are_kept (a : args) (w : world) :
  dom (files (main glob a w).1) = dom (files w)
  /\ exists out, trace (main glob a w).1 = trace w ++ out.
Proof.
  destruct (main_unfold glob a w) as (pre & -> & _ & _).
  destruct (main_loop _ _ _) as [w' r] eqn:E. split.
  - by apply main_loop_dom in E.
  - apply main_loop_shape in E as (ps & rest & out & _ & _ & -> & _).
    exists (pre ++ out). simpl. by rewrite <- app_assoc.
Qed.

(** X7: a run opens for writing only paths that the traversal yields:
    no write goes to any other path, also when the run ends with an
    exception. *)
Theorem X7_writes_go_to_traversed_paths_only (a : args) (w : world)
    (path : string) :
  path ∉ glob (directory a) (files w) ->
  forall out lines,
    trace (main glob a w).1 = trace w ++ out -> Written path lines ∉ out.
Proof.
  intros Hn. destruct (main_unfold glob a w) as (pre & -> & Hpre & _).
  destruct (main_loop _ _ _) as [w' r] eqn:E.
  apply main_loop_shape in E
    as (ps & rest & out & Hps & _ & -> & Hw & _ & _).
  rewrite Hps in Hn. apply not_elem_of_app in Hn as [Hn _]. simpl.
  intros out' lines Ht. rewrite <- app_assoc in Ht.
  apply app_inv_head in Ht as <-. intros [Hin|Hin]%elem_of_app.
  - rewrite Forall_forall in Hpre. by apply Hpre in Hin as [? _].
  - by apply Hw in Hin.
Qed.

(** X8: without [-v] a run prints nothing: all it adds to the trace are
    the writes of files. *)
Theorem X8_quiet_without_verbose (a : args) (w : world) :
  verbose a = 0%nat ->
  exists out,
    trace (main glob a w).1 = trace w ++ out
    /\ Forall (fun e => is_write e = true) out.
Proof.
  intros Hv. destruct (main_unfold glob a w) as (pre & -> & _ & Hpre).
  rewrite (Hpre Hv), app_nil_r.
  destruct (main_loop _ _ _) as [w' r] eqn:E.
  apply main_loop_shape in E as (ps & rest & out & _ & _ & -> & _ & Hq & _).
  exists out. split; [done|]. by apply Hq.
Qed.

(** The traversal looks at the names in the tree, not at what the files
    hold. *)
Hypothesis glob_names : forall directory tree tree',
  dom tree = dom tree' -> glob directory tree = glob directory tree'.


End Run.

(** X13: a file that the body of the loop writes has no CR left in it
    when the version has none: CR LF and lone CR line ends come back as
    LF, also on the lines that were not changed. *)
Theorem X13_written_file_has_LF_line_ends (a : args) (path : string)
    (w w' : world) (r : option exn) (out : list event) (lines : list str) :
  CR ∉ version a ->
  process_file a path w = (w', r) ->
  trace w' = trace w ++ out -> Written path lines ∈ out ->
  exists text, files w' !! path = Some text /\ CR ∉ text.
Proof.
  intros Hv H Ht Hin. destruct (files w !! path) as [content|] eqn:E.
  - destruct (process_file_readable a path w content E)
      as (out' & E' & Hw & _).
    rewrite E' in H. injection H as <- <-. simpl in Ht.
    apply app_inv_head in Ht as <-. destruct (Hw _ _ Hin) as (_ & Hc & ->).
    exists (left_in_file a path content). split.
    + simpl. by rewrite lookup_alter_eq, E.
    + rewrite left_in_file_spec.
      destruct (count_matched (readlines content)); [done|].
      apply elem_of_concat_lines, Forall_fmap.
      eapply Forall_impl; [apply readlines_no_CR|].
      intros l Hl. by apply rewrite_line_avoids.
  - rewrite (process_file_missing _ _ _ E) in H. injection H as <- <-.
    rewrite <- (app_nil_r (trace w)) in Ht at 1.
    apply app_inv_head in Ht as <-. by apply elem_of_nil in Hin.
Qed.

Lemma X7_writes_go_to_traversed_paths_only_witness :
  Written "Doc/intro.rst" [intro]
  ∉ trace (main MoreFixtures.only_whatsnew to_3_13 (World docs [])).1.
Proof.
  apply (X7_writes_go_to_traversed_paths_only MoreFixtures.only_whatsnew
           to_3_13 (World docs []) "Doc/intro.rst").
  - apply not_elem_of_cons. split; [discriminate|apply not_elem_of_nil].
  - reflexivity.
Defined.

Lemma X8_quiet_without_verbose_witness :
  exists out,
    trace (main every_file MoreFixtures.quietly_to_3_13 (World docs [])).1
    = [] ++ out
    /\ Forall (fun e => is_write e = true) out.
Proof.
  apply (X8_quiet_without_verbose every_file MoreFixtures.quietly_to_3_13
           (World docs [])).
  reflexivity.
Defined.


Lemma X13_written_file_has_LF_line_ends_witness :
  exists text,
    files (process_file to_3_13 "Doc/whatsnew.rst" (World docs [])).1
      !! "Doc/whatsnew.rst" = Some text
    /\ CR ∉ text.
Proof.
  apply (X13_written_file_has_LF_line_ends to_3_13 "Doc/whatsnew.rst"
           (World docs [])
           (process_file to_3_13 "Doc/whatsnew.rst" (World docs [])).1
           (process_file to_3_13 "Doc/whatsnew.rst" (World docs [])).2
           (trace (process_file to_3_13 "Doc/whatsnew.rst" (World docs [])).1)
           (RewriterSpec.rewrite_line (lit "3.13") <$> readlines whatsnew)).
  - intros H. repeat (apply elem_of_cons in H as [H|H]; [discriminate H|]).
    by apply elem_of_nil in H.
  - apply surjective_pairing.
  - reflexivity.
  - vm_compute. apply list_elem_of_further, list_elem_of_here.
Defined.

End TreeExtras.

(** ** The helpers of the tests *)

Module HelperFacts.
Import Py TestHelpers.
Local Arguments lit : simpl never.

(** The questions of [ask_all], as long as there are answers. *)
Lemma with_fake_input_ask_all {A} questions : forall (k : list str -> prog A)
    answers printed,
  with_fake_input (ask_all questions k) answers printed
  = if decide (length questions <= length answers)%nat
    then with_fake_input (k (take (length questions) answers))
           (drop (length questions) answers)
           (printed ++ transcript questions answers)
    else Fed (inr IndexError) [] (printed ++ transcript questions answers).
Proof.
  induction questions as [|q questions IH]; intros k answers printed.
  - cbn [ask_all length]. case_decide; [|lia].
    by rewrite take_0, drop_0, app_nil_r.
  - destruct answers as [|x answers]; cbn [ask_all with_fake_input].
    + case_decide; [simpl in *; lia|]. by rewrite app_nil_r.
    + rewrite IH. cbn [length take drop transcript zip_with].
      rewrite <- app_assoc. cbn [app].
      repeat case_decide; first [done|lia].
Qed.

(** The answers go out in their order, each with a printed line. *)
Lemma with_fake_input_conserves {A} (body : prog A) : forall answers printed,
  exists consumed questions,
    answers
    = consumed ++ answers_left (with_fake_input body answers printed)
    /\ length questions = length consumed
    /\ TestHelpers.printed (with_fake_input body answers printed)
       = printed ++ transcript questions consumed.
Proof.
  induction body as [a|e|q k IH]; intros answers printed.
  - exists [], []. cbn. by rewrite !app_nil_r.
  - exists [], []. cbn. by rewrite !app_nil_r.
  - destruct answers as [|x answers]; cbn [with_fake_input].
    + exists [], []. cbn. by rewrite !app_nil_r.
    + destruct (IH x answers (printed ++ [q ++ lit " -- " ++ x]))
        as (consumed & questions & E & Hl & Hp).
      exists (x :: consumed), (q :: questions). split; [|split].
      * cbn [app]. by rewrite <- E.
      * cbn [length]. by rewrite Hl.
      * rewrite Hp, <- app_assoc. done.
Qed.

(** Answers that a finished body has left do not matter to it. *)
Lemma with_fake_input_more {A} (body : prog A) : forall answers more printed,
  result (with_fake_input body answers printed) ≠ inr IndexError ->
  with_fake_input body (answers ++ more) printed
  = Fed (result (with_fake_input body answers printed))
      (answers_left (with_fake_input body answers printed) ++ more)
      (TestHelpers.printed (with_fake_input body answers printed)).
Proof.
  induction body as [a|e|q k IH]; intros answers more printed H; [done..|].
  destruct answers as [|x answers]; simpl in *; [done|]. by apply IH.
Qed.

Lemma with_fake_input_bind {A B} (m : prog A) (f : A -> prog B) :
  forall answers printed,
  with_fake_input (bind m f) answers printed
  = match result (with_fake_input m answers printed) with
    | inl a =>
        with_fake_input (f a)
          (answers_left (with_fake_input m answers printed))
          (TestHelpers.printed (with_fake_input m answers printed))
    | inr e =>
        Fed (inr e) (answers_left (with_fake_input m answers printed))
          (TestHelpers.printed (with_fake_input m answers printed))
    end.
Proof.
  induction m as [a|e|q k IH]; intros answers printed; [done..|].
  destruct answers as [|x answers]; simpl; [done|]. apply IH.
Qed.

(** Lines printed before the block stay in front of its own. *)
Lemma with_fake_input_printed {A} (body : prog A) : forall answers pr,
  with_fake_input body answers pr
  = Fed (result (with_fake_input body answers []))
      (answers_left (with_fake_input body answers []))
      (pr ++ TestHelpers.printed (with_fake_input body answers [])).
Proof.
  induction body as [a|e|q k IH]; intros answers pr.
  - cbn. by rewrite app_nil_r.
  - cbn. by rewrite app_nil_r.
  - destruct answers as [|y answers]; cbn [with_fake_input];
      [cbn; by rewrite app_nil_r|].
    rewrite (IH y answers (pr ++ _)), (IH y answers ([] ++ _)).
    cbn [result answers_left TestHelpers.printed app].
    by rewrite <- app_assoc.
Qed.

(** The check at the end of the block changes the result only. *)
Lemma fake_answers_fields {A} (answers : list str) (body : prog A) :
  answers_left (fake_answers answers body)
  = answers_left (with_fake_input body answers [])
  /\ TestHelpers.printed (fake_answers answers body)
     = TestHelpers.printed (with_fake_input body answers []).
Proof.
  unfold fake_answers.
  destruct (with_fake_input body answers []) as [[a|e] [|x l] p]; done.
Qed.

Lemma utf8_char_length c b :
  utf8_char c = Some b ->
  (1 <= length b)%nat /\ (length b = 1%nat <-> c < 128).
Proof.
  unfold utf8_char.
  destruct (N.ltb_spec c 128); [intros [= <-]; simpl; split; [lia|done]|].
  destruct (c <? 2048); [intros [= <-]; simpl; split; [lia|]; split; [done|lia]|].
  destruct ((55296 <=? c) && (c <=? 57343)); [done|].
  destruct (c <? 65536); [intros [= <-]; simpl; split; [lia|]; split; [done|lia]|].
  destruct (c <? 1114112); [|done].
  intros [= <-]; simpl; split; [lia|]; split; [done|lia].
Qed.

Lemma utf8_length s : forall bytes,
  utf8 s = Some bytes ->
  (length s <= length bytes)%nat
  /\ (length bytes = length s <-> Forall (fun c => c < 128) s).
Proof.
  induction s as [|c s IH]; intros bytes.
  - intros [= <-]. by split.
  - cbn [utf8]. destruct (utf8_char c) as [b|] eqn:Ec; [|done].
    destruct (utf8 s) as [bs|] eqn:Es; [|done]. simpl. intros [= <-].
    destruct (utf8_char_length _ _ Ec) as [H1 H2].
    destruct (IH bs eq_refl) as [H3 H4].
    rewrite length_app, Forall_cons. split; [lia|]. split.
    + intros H. split; [apply H2|apply H4]; lia.
    + intros [Hc Hs]. apply H2 in Hc. apply H4 in Hs. lia.
Qed.

Lemma utf8_ascii s : Forall (fun c => c < 128) s -> utf8 s = Some s.
Proof.
  induction 1 as [|c s Hc Hs IH]; [done|]. cbn [utf8].
  unfold utf8_char. apply N.ltb_lt in Hc. rewrite Hc, IH. done.
Qed.

End HelperFacts.

Module HelperExtras.
Import Py TestHelpers HelperFacts.
Local Arguments lit : simpl never.

(** X14: under [fake_answers] a body that puts its questions one after
    the other ends well exactly when there are as many answers as
    questions, and it then sees the answers in their order; with answers
    left over the block ends with an assertion error, and with too few
    the patched [input] raises [IndexError]. *)
Theorem X14_fake_answers_needs_every_answer {A} (questions answers : list str)
    (f : list str -> A) :
  let r := fake_answers answers (ask_all questions (fun xs => Ret (f xs))) in
  (length questions = length answers ->
   r = Fed (inl (f answers)) [] (transcript questions answers))
  /\ ((length questions < length answers)%nat ->
      result r = inr AssertionError
      /\ answers_left r = drop (length questions) answers)
  /\ ((length answers < length questions)%nat ->
      r = Fed (inr IndexError) [] (transcript questions answers)).
Proof.
  unfold fake_answers. rewrite with_fake_input_ask_all. cbn [app].
  split; [|split]; intros H.
  - rewrite decide_True by lia. cbn [with_fake_input result answers_left].
    rewrite H, drop_all, firstn_all. done.
  - rewrite decide_True by lia. cbn [with_fake_input result answers_left].
    destruct (drop (length questions) answers) as [|x rest] eqn:E; [|done].
    apply (f_equal length) in E. rewrite length_drop in E. simpl in E. lia.
  - by rewrite decide_False by lia.
Qed.

Lemma X14_fake_answers_needs_every_answer_witness :
  result (fake_answers [lit "yes"; lit "no"]
            (ask_all [lit "Proceed?"] (fun xs => Ret (length xs))))
  = inr AssertionError
  /\ answers_left (fake_answers [lit "yes"; lit "no"]
                     (ask_all [lit "Proceed?"] (fun xs => Ret (length xs))))
     = drop (length [lit "Proceed?"]) [lit "yes"; lit "no"].
Proof.
  apply (X14_fake_answers_needs_every_answer [lit "Proceed?"]
           [lit "yes"; lit "no"] (fun xs => length xs)).
  simpl. lia.
Defined.

(** X15: whatever the body does, the patched [input] hands out the
    answers from the front of the list, in order and each one once, and
    prints one line, the question and the answer, for each answer it
    hands out. *)
Theorem X15_fake_input_hands_out_in_order {A} (answers : list str)
    (body : prog A) :
  exists consumed questions,
    answers = consumed ++ answers_left (fake_answers answers body)
    /\ length questions = length consumed
    /\ printed (fake_answers answers body) = transcript questions consumed.
Proof.
  destruct (with_fake_input_conserves body answers [])
    as (consumed & questions & E & Hl & Hp).
  destruct (fake_answers_fields answers body) as [-> ->].
  by exists consumed, questions.
Qed.

(** X16: two pieces of code run one after the other under one
    [fake_answers] share the answers: when the first piece alone ends
    well on the answers [a1], the two on [a1 ++ a2] end as the second
    piece does on [a2], with the printed lines of both. *)
Theorem X16_fake_answers_in_sequence {A B} (a1 a2 : list str) (m : prog A)
    (f : A -> prog B) (x : A) (p1 : list str) :
  fake_answers a1 m = Fed (inl x) [] p1 ->
  fake_answers (a1 ++ a2) (bind m f)
  = Fed (result (fake_answers a2 (f x)))
      (answers_left (fake_answers a2 (f x)))
      (p1 ++ printed (fake_answers a2 (f x))).
Proof.
  unfold fake_answers. intros H.
  destruct (with_fake_input m a1 []) as [[y|e] [|z l1] q1] eqn:E1;
    cbn [result answers_left printed] in H; try done.
  injection H as -> ->.
  rewrite with_fake_input_bind, with_fake_input_more by (by rewrite E1).
  rewrite E1. cbn [result answers_left printed app].
  rewrite (with_fake_input_printed (f x) a2 p1).
  by destruct (with_fake_input (f x) a2 []) as [[b|e] [|z l2] q2].
Qed.

Lemma X16_fake_answers_in_sequence_witness :
  fake_answers ([lit "yes"] ++ [lit "no"])
    (bind (Input (lit "First?") (fun x => Ret x))
       (fun x => Input (lit "Second?") (fun y => Ret (x, y))))
  = Fed (result (fake_answers [lit "no"]
                   (Input (lit "Second?") (fun y => Ret (lit "yes", y)))))
      (answers_left (fake_answers [lit "no"]
                       (Input (lit "Second?") (fun y => Ret (lit "yes", y)))))
      ([lit "First?" ++ lit " -- " ++ lit "yes"]
       ++ printed (fake_answers [lit "no"]
                     (Input (lit "Second?") (fun y => Ret (lit "yes", y))))).
Proof.
  apply (X16_fake_answers_in_sequence [lit "yes"] [lit "no"]
           (Input (lit "First?") (fun x => Ret x))
           (fun x => Input (lit "Second?") (fun y => Ret (x, y)))
           (lit "yes")).
  reflexivity.
Defined.

(** X17: the member [index.html] that [prepare_fake_docs] writes holds
    as many bytes as [content] has characters: the content itself when it
    is ASCII, and otherwise a proper front part of its UTF-8 encoding,
    shorter than the encoding. *)
Theorem X17_fake_docs_member_is_cut_to_len (content bytes : list N) :
  utf8 content = Some bytes ->
  exists member,
    fake_docs_member content = Some member
    /\ length member = length content
    /\ member = take (length content) bytes
    /\ (Forall (fun c => c < 128) content -> member = content)
    /\ (~ Forall (fun c => c < 128) content ->
        (length member < length bytes)%nat).
Proof.
  intros E. destruct (utf8_length _ _ E) as [Hle Hiff].
  exists (take (length content) bytes). unfold fake_docs_member.
  rewrite E. simpl. split; [done|]. split; [rewrite length_take; lia|].
  split; [done|]. split.
  - intros Ha. rewrite (utf8_ascii _ Ha) in E. injection E as <-.
    apply firstn_all.
  - intros Hn. rewrite length_take.
    assert (length bytes ≠ length content) by (intros ?; by apply Hn, Hiff).
    lia.
Qed.

Lemma X17_fake_docs_member_is_cut_to_len_witness :
  exists member,
    fake_docs_member (lit "New in 3.13 " ++ [8212]) = Some member
    /\ length member = length (lit "New in 3.13 " ++ [8212])
    /\ member
       = take (length (lit "New in 3.13 " ++ [8212]))
           (lit "New in 3.13 " ++ [226; 128; 148])
    /\ (Forall (fun c => c < 128) (lit "New in 3.13 " ++ [8212]) ->
        member = lit "New in 3.13 " ++ [8212])
    /\ (~ Forall (fun c => c < 128) (lit "New in 3.13 " ++ [8212]) ->
        (length member
         < length (lit "New in 3.13 " ++ [226; 128; 148]%N))%nat).
Proof.
  apply (X17_fake_docs_member_is_cut_to_len (lit "New in 3.13 " ++ [8212])
           (lit "New in 3.13 " ++ [226; 128; 148])).
  vm_compute. reflexivity.
Defined.

End HelperExtras.

(** ** A run with the version [next] *)

Module NextExtras.
Import Py Re ReSpec Grammar RewriterSpec TreeSpec PyFacts ReFacts.
Import DirectiveFacts UpdateVersionNext LineFacts ScanFacts TextFacts.
Import RewriteFacts MainFacts TreeFacts RunFacts Fixtures.

Lemma rewrite_lines_next (file : list str) :
  rewrite_line (lit "next") <$> file = file.
Proof.
  induction file as [|l ls IH]; [done|].
  cbn [fmap list_fmap]. f_equal; [|exact IH].
  destruct (matched l) eqn:E.
  - apply matched_iff in E as (b & c & H).
    rewrite (rewrite_line_directive _ _ _ _ H).
    by apply directive_line_inv in H as [_ ->].
  - apply matched_false_iff in E. by rewrite rewrite_line_other.
Qed.

Lemma left_in_file_next a path content :
  version a = lit "next" ->
  left_in_file a path content = content
  \/ left_in_file a path content = universal_newlines content.
Proof.
  intros Hv. rewrite left_in_file_spec.
  destruct (count_matched (readlines content)); [by left|]. right.
  rewrite Hv, rewrite_lines_next. apply concat_split_lines.
Qed.

Lemma rewrite_tree_next a paths :
  version a = lit "next" ->
  forall tree path text',
    rewrite_tree a paths tree !! path = Some text' ->
    exists text,
      tree !! path = Some text
      /\ (text' = text \/ text' = universal_newlines text).
Proof.
  intros Hv. unfold rewrite_tree.
  induction paths as [|q paths IH]; intros tree path text' H.
  - exists text'. split; [done|by left].
  - simpl in H. apply IH in H as (t1 & H1 & Ht).
    rewrite lookup_alter in H1. case_decide as Hq.
    + subst q. destruct (tree !! path) as [t|]; [|done].
      injection H1 as <-. exists t. split; [done|].
      destruct (left_in_file_next a path t Hv) as [E|E]; rewrite E in Ht.
      * exact Ht.
      * right. destruct Ht as [->| ->]; [done|].
        apply universal_newlines_id, universal_newlines_no_CR.
    + by exists t1.
Qed.

Section Run.

Variable glob : string -> gmap string str -> list string.

(** X19: a run with the version [next] changes no text: whatever the
    traversal yields and however the run ends, every file holds
    afterwards either the text it held or that text with its CR LF and
    CR line ends turned into LF. *)
Theorem X19_run_with_next_keeps_the_text (a : args) (w : world)
    (path : string) (text' : str) :
  version a = lit "next" ->
  files (main glob a w).1 !! path = Some text' ->
  exists text,
    files w !! path = Some text
    /\ (text' = text \/ text' = universal_newlines text).
Proof.
  intros Hv. destruct (main_unfold glob a w) as (pre & -> & _ & _).
  destruct (main_loop _ _ _) as [w' r] eqn:E.
  apply main_loop_shape in E as (ps & rest & out & _ & _ & -> & _).
  simpl. by apply rewrite_tree_next.
Qed.

End Run.

Lemma X19_run_with_next_keeps_the_text_witness :
  exists text,
    docs !! "Doc/whatsnew.rst" = Some text
    /\ (universal_newlines whatsnew = text
        \/ universal_newlines whatsnew = universal_newlines text).
Proof.
  apply (X19_run_with_next_keeps_the_text every_file
           (Args (lit "next") "Doc" 0) (World docs []) "Doc/whatsnew.rst"
           (universal_newlines whatsnew)).
  - reflexivity.
  - vm_compute. reflexivity.
Defined.

End NextExtras.
